(** * Simple Command Parser (GPIO-cmd-console): a shallow embedding

    The development follows [simple_command_parser.c] / [.h]:

    - the command registry ([cmd_list], [scp_init], [scp_add_command],
      [find_command]);
    - the line reader ([input]);
    - the dispatch loop ([scp_parse]).

    C strings are Rocq strings (the characters before the terminator), a
    pointer that may be NULL is an [option], the linked list hanging off
    [cmd_list.head] is a Rocq list in link order.  A failed [assert] and an
    undefined operation (dereferencing NULL, writing outside an array) are
    separate outcomes, so that "no assertion fires" and "stays inside the
    buffer" can be stated. *)

From Stdlib Require Import ZArith List String Ascii Bool Lia.
Import ListNotations.
Open Scope string_scope.
Open Scope list_scope.
Open Scope Z_scope.

(** ** Outcomes of a call *)

(** The [assert]s of the module, in source order. *)
Inductive assertion : Type :=
| A_not_reinit     (* scp_init:        assert(cmd_list.head == NULL) *)
| A_new_cmd        (* new_command:     assert(new_cmd)               *)
| A_initialised    (* scp_add_command: assert(cmd_list.head)         *)
| A_cmd_str        (*                  assert(cmd_str)               *)
| A_help_str       (*                  assert(help_str)              *)
| A_min_max        (*                  assert(min_arg <= max_arg)    *)
| A_func           (*                  assert(func)                  *)
| A_cmd_len        (*                  assert(strlen(cmd_str) < MAX_CMD_STR)   *)
| A_abbr_len       (*                  assert(strlen(abbr_str) < MAX_ABBR_STR) *)
| A_help_len.      (*                  assert(strlen(help_str) < MAX_HELP_STR) *)

(** Undefined behaviour the module can run into. *)
Inductive undefined : Type :=
| NullDeref        (* a string function is handed a NULL pointer *)
| OutOfBounds.     (* a store outside the array it is meant for  *)

Inductive outcome (A : Type) : Type :=
| Ok (a : A)
| AssertFail (a : assertion)
| Undefined (u : undefined)
| OutOfFuel.

Arguments Ok {A} a.
Arguments AssertFail {A} a.
Arguments Undefined {A} u.
Arguments OutOfFuel {A}.

Definition bind {A B : Type} (c : outcome A) (k : A -> outcome B) : outcome B :=
  match c with
  | Ok a => k a
  | AssertFail a => AssertFail a
  | Undefined u => Undefined u
  | OutOfFuel => OutOfFuel
  end.

Notation "x <- c ;; k" := (bind c (fun x => k))
  (at level 61, c at next level, right associativity).
Notation "' pat <- c ;; k" := (bind c (fun x => match x with pat => k end))
  (at level 61, pat pattern, c at next level, right associativity).
Notation "'assert' b 'else_abort' a ;; k" := (if b then k else AssertFail a)
  (at level 61, b at next level, a at next level, right associativity).

(** ** Constants of the header and of the module *)

Definition MAX_CMD_STR : nat := 11.
Definition MAX_ABBR_STR : nat := 5.
Definition MAX_HELP_STR : nat := 41.
Definition MAX_INPUT_BUFFER : Z := 128.
Definition MAX_ARGC : nat := 6.

(** Characters the reader and the tokenizer single out. *)
Definition NUL : ascii := "000"%char.
Definition BS : ascii := "008"%char.     (* '\b' *)
Definition LF : ascii := "010"%char.     (* '\n' *)
Definition CR : ascii := "013"%char.     (* '\r' *)
Definition DEL : ascii := "127"%char.
(** [(char)EOF]: what [*ptr = getchar()] stores once the stream is over. *)
Definition EOF_char : ascii := "255"%char.

(** ** Data model *)

(** [cmd_func_t].  The two built-in handlers are [static]: only [scp_init]
    can name them.  A handler supplied through [scp_add_command] lives in
    another translation unit and cannot reach the module's statics; it is a
    function of [argc] and [argv] to its [int] result. *)
Inductive cmd_func_t : Type :=
| fn_help
| fn_end
| fn_user (f : Z -> list string -> Z).

(** [struct _command_t], without [next]: the link is the list structure. *)
Record command_t : Type := mk_command {
  cmd_str : string;
  abbr_str : option string;
  help_str : string;
  min_arg : Z;
  max_arg : Z;
  func : cmd_func_t
}.

(** [struct _list_t]. *)
Record list_t : Type := mk_list {
  head : list command_t;
  size : Z
}.

(** What the module prints. *)
Inductive out_item : Type :=
| OutChar (c : ascii)                              (* PUTCH(c), "\n", "\b \b" *)
| OutHelpHeader                                    (* "\nCOMMAND  ABBR  DESCRIPTION\n" *)
| OutHelpRow (c : string) (a : option string) (h : string)  (* one row *)
| OutPrompt (count : Z)                            (* "In [%d]> " *)
| OutTooFew (count : Z) (cmd : string) (n : Z)     (* "... too few args (less than %d)!" *)
| OutTooMany (count : Z) (cmd : string) (n : Z)    (* "... too many args (more than %d)!" *)
| OutResult (count : Z) (r : Z)                    (* "Out[%d]> %d" *)
| OutUnknown (count : Z) (token : string).         (* "Out[%d]> Unknown Command: %s" *)

(** One handler invocation [( *command->func)(argc, argv)]. *)
Record call : Type := mk_call {
  call_func : cmd_func_t;
  call_argc : Z;
  call_argv : list string
}.

(** The statics of the module and its environment: the allocator (how many
    nodes [malloc] can still hand out), the character stream behind [GETCH]
    and what was printed.  [calls] is a ghost log of handler invocations. *)
Record world : Type := mk_world {
  cmd_list : list_t;
  end_parsing : Z;
  heap_nodes : nat;
  stdin : list ascii;
  stdout : list out_item;
  calls : list call
}.

Definition set_cmd_list (l : list_t) (w : world) : world :=
  mk_world l (end_parsing w) (heap_nodes w) (stdin w) (stdout w) (calls w).
Definition set_end_parsing (e : Z) (w : world) : world :=
  mk_world (cmd_list w) e (heap_nodes w) (stdin w) (stdout w) (calls w).
Definition set_heap_nodes (n : nat) (w : world) : world :=
  mk_world (cmd_list w) (end_parsing w) n (stdin w) (stdout w) (calls w).
Definition set_stdin (s : list ascii) (w : world) : world :=
  mk_world (cmd_list w) (end_parsing w) (heap_nodes w) s (stdout w) (calls w).
Definition printf (o : list out_item) (w : world) : world :=
  mk_world (cmd_list w) (end_parsing w) (heap_nodes w) (stdin w)
           (stdout w ++ o) (calls w).
Definition log_call (c : call) (w : world) : world :=
  mk_world (cmd_list w) (end_parsing w) (heap_nodes w) (stdin w) (stdout w)
           (calls w ++ [c]).

(** The statics are zero-initialised: empty list, size 0, flag 0. *)
Definition boot (nodes : nat) (keys : list ascii) : world :=
  mk_world (mk_list [] 0) 0 nodes keys [] [].

(** ** Registry *)

(** [new_command]: [malloc] a node and fill it in. *)
Definition new_command (cmd : string) (abbr : option string) (help : string)
    (mn mx : Z) (f : cmd_func_t) (w : world) : outcome (command_t * world) :=
  match heap_nodes w with
  | O => AssertFail A_new_cmd
  | S n => Ok (mk_command cmd abbr help mn mx f, set_heap_nodes n w)
  end.

Definition is_null {A : Type} (l : list A) : bool :=
  match l with [] => true | _ :: _ => false end.

(** [scp_init]. *)
Definition scp_init (do_not_exit : Z) (w : world) : outcome world :=
  assert is_null (head (cmd_list w)) else_abort A_not_reinit ;;
  '(help_cmd, w) <- new_command "help" (Some "h")
                      "Lists all commands available." 0 0 fn_help w ;;
  let w := set_cmd_list (mk_list [help_cmd] (size (cmd_list w) + 1)) w in
  if do_not_exit =? 0 then
    '(end_cmd, w) <- new_command "end" (Some "end")
                       "Exit the parser." 0 0 fn_end w ;;
    Ok (set_cmd_list (mk_list [help_cmd; end_cmd] (size (cmd_list w) + 1)) w)
  else Ok w.

(** [strlen] of a non-NULL string; on NULL the call is undefined. *)
Definition strlen (s : option string) : outcome nat :=
  match s with
  | None => Undefined NullDeref
  | Some s => Ok (String.length s)
  end.

(** [scp_add_command].  The three strings and the handler are pointers; the
    handler, when not NULL, is a function of the caller. *)
Definition scp_add_command (cmd abbr help : option string) (mn mx : Z)
    (f : option (Z -> list string -> Z)) (w : world) : outcome world :=
  assert negb (is_null (head (cmd_list w))) else_abort A_initialised ;;
  match cmd, help with
  | None, _ => AssertFail A_cmd_str
  | Some _, None => AssertFail A_help_str
  | Some cmd_s, Some help_s =>
    assert (mn <=? mx) else_abort A_min_max ;;
    match f with
    | None => AssertFail A_func
    | Some f =>
      assert (String.length cmd_s <? MAX_CMD_STR)%nat else_abort A_cmd_len ;;
      abbr_len <- strlen abbr ;;
      assert (abbr_len <? MAX_ABBR_STR)%nat else_abort A_abbr_len ;;
      assert (String.length help_s <? MAX_HELP_STR)%nat else_abort A_help_len ;;
      '(new_cmd, w) <- new_command cmd_s abbr help_s mn mx (fn_user f) w ;;
      Ok (set_cmd_list (mk_list (head (cmd_list w) ++ [new_cmd])
                                (size (cmd_list w) + 1)) w)
    end
  end.

(** [find_command].  [strcmp (name, ...)] dereferences [name] on the first
    node already; with no node at all the loop body never runs. *)
Definition name_matches (name : string) (c : command_t) : bool :=
  (name =? cmd_str c)%string ||
  match abbr_str c with
  | Some a => (name =? a)%string
  | None => false
  end.

Fixpoint find_command (name : option string) (cmd_ptr : list command_t)
    : outcome (option command_t) :=
  match cmd_ptr with
  | [] => Ok None
  | c :: next =>
    match name with
    | None => Undefined NullDeref
    | Some n => if name_matches n c then Ok (Some c) else find_command name next
    end
  end.

(** ** The line reader *)

(** Memory as seen from [in_buffer]: offset to byte.  It is total, the bytes
    behind the buffer included, and every store is logged with its offset, so
    that where [input] writes can be compared with the buffer's extent. *)
Definition memory : Type := Z -> ascii.

Definition store (m : memory) (i : Z) (c : ascii) : memory :=
  fun j => if j =? i then c else m j.

(** The loop state of [input]: [ptr] is [ptr - in_buffer]. *)
Record reader : Type := mk_reader {
  mem : memory;
  ptr : Z;
  written : list Z;
  echoed : list out_item
}.

(** [*ptr = c]. *)
Definition poke (c : ascii) (r : reader) : reader :=
  mk_reader (store (mem r) (ptr r) c) (ptr r) (written r ++ [ptr r]) (echoed r).

(** [--ptr; printf("\b \b")]. *)
Definition erase (r : reader) : reader :=
  mk_reader (mem r) (ptr r - 1) (written r)
            (echoed r ++ [OutChar BS; OutChar " "%char; OutChar BS]).

(** [PUTCH( *ptr++)]. *)
Definition putch (r : reader) : reader :=
  mk_reader (mem r) (ptr r + 1) (written r)
            (echoed r ++ [OutChar (mem r (ptr r))]).

Inductive loop_ctl : Type :=
| Continue (r : reader)
| Break (r : reader).

(** One evaluation of the loop condition on the character [ch] that [GETCH]
    returned, and of the body when the condition holds. *)
Definition input_iter (len : Z) (r : reader) (ch : ascii) : loop_ctl :=
  let r := poke ch r in
  if negb (ch =? CR)%char && negb (ch =? LF)%char && (ptr r <? len) then
    if (ch =? BS)%char || (ch =? DEL)%char then
      if 0 <? ptr r then Continue (erase r) else Continue r
    else Continue (putch r)
  else Break r.

(** [GETCH]: the next character, [(char)EOF] for ever once the stream is
    over. *)
Definition GETCH (keys : list ascii) : ascii * list ascii :=
  match keys with
  | [] => (EOF_char, [])
  | c :: keys' => (c, keys')
  end.

Fixpoint input_loop (fuel : nat) (len : Z) (r : reader) (keys : list ascii)
    : option (reader * list ascii) :=
  match fuel with
  | O => None
  | S fuel' =>
    let (ch, keys') := GETCH keys in
    match input_iter len r ch with
    | Continue r' => input_loop fuel' len r' keys'
    | Break r' => Some (r', keys')
    end
  end.

(** Iterations that are always enough: a key is consumed at each one, and
    past the end of the stream every [(char)EOF] is stored. *)
Definition input_fuel (len : Z) (keys : list ascii) : nat :=
  2 * List.length keys + Z.to_nat len + 1.

Definition reader_init (in_buffer : memory) : reader :=
  mk_reader in_buffer 0 [] [].

(** [input (in_buffer, len)]: the value returned, the memory, the offsets
    stored to, and the world after the keys read and the echo. *)
Definition input (in_buffer : memory) (len : Z) (w : world)
    : option (Z * memory * list Z * world) :=
  match input_loop (input_fuel len (stdin w)) len (reader_init in_buffer)
                   (stdin w) with
  | None => None
  | Some (r, keys') =>
    let r := poke NUL r in
    Some (ptr r, mem r, written r, printf (echoed r) (set_stdin keys' w))
  end.

(** The reader driven by an explicit key sequence: where the loop stands
    after these keys, or where it broke off (later keys stay unread). *)
Fixpoint type_keys (len : Z) (r : reader) (keys : list ascii) : loop_ctl :=
  match keys with
  | [] => Continue r
  | ch :: keys' =>
    match input_iter len r ch with
    | Continue r' => type_keys len r' keys'
    | Break r' => Break r'
    end
  end.

Definition reader_of (c : loop_ctl) : reader :=
  match c with Continue r => r | Break r => r end.

Definition running (c : loop_ctl) : bool :=
  match c with Continue _ => true | Break _ => false end.

(** The characters stored so far: the bytes at offsets [0 .. ptr-1]. *)
Definition stored (r : reader) : list ascii :=
  map (fun i => mem r (Z.of_nat i)) (seq 0 (Z.to_nat (ptr r))).

(** The C string at offset [from], read up to its terminator; [n] bounds the
    scan. *)
Fixpoint c_str (m : memory) (from : Z) (n : nat) : string :=
  match n with
  | O => ""
  | S n' =>
    if (m from =? NUL)%char then ""
    else String (m from) (c_str m (from + 1) n')
  end.

(** ** Tokenizer: [strtok (s, " .,")] *)

Definition is_delim (c : ascii) : bool :=
  (c =? " ")%char || (c =? ".")%char || (c =? ",")%char.

Fixpoint skip_delims (s : string) : string :=
  match s with
  | "" => ""
  | String c s' => if is_delim c then skip_delims s' else s
  end.

(** The token at the head of [s] and the saved position behind the delimiter
    that ended it (the end of the string when none did). *)
Fixpoint scan_token (s : string) : string * string :=
  match s with
  | "" => ("", "")
  | String c s' =>
    if is_delim c then ("", s')
    else let (t, save) := scan_token s' in (String c t, save)
  end.

(** NULL when only delimiters are left. *)
Definition strtok (s : string) : option (string * string) :=
  match skip_delims s with
  | "" => None
  | s' => Some (scan_token s')
  end.

(** The argument loop of [scp_parse]:
    [while ((token = strtok (NULL, " .,")) != NULL && argc < MAX_ARGC)
       argv[argc++] = token;]
    [slots] is [MAX_ARGC - argc]. *)
Fixpoint collect_args (slots : nat) (save : string) : list string :=
  match strtok save with
  | None => []
  | Some (token, save') =>
    match slots with
    | O => []
    | S slots' => token :: collect_args slots' save'
    end
  end.

(** All the tokens of a string, by repeated [strtok]. *)
Fixpoint tokens_upto (n : nat) (s : string) : list string :=
  match n with
  | O => []
  | S n' =>
    match strtok s with
    | None => []
    | Some (token, save) => token :: tokens_upto n' save
    end
  end.

Definition tokens (s : string) : list string :=
  tokens_upto (S (String.length s)) s.

(** ** Handlers *)

Definition help_row (c : command_t) : out_item :=
  OutHelpRow (cmd_str c) (abbr_str c) (help_str c).

(** [help_cmd_func]. *)
Definition help_cmd_func (argc : Z) (argv : list string) (w : world)
    : Z * world :=
  let w := printf [OutHelpHeader] w in
  let w := printf (map help_row (head (cmd_list w))) w in
  let w := printf [OutChar LF] w in
  (1, w).

(** [end_cmd_func]. *)
Definition end_cmd_func (argc : Z) (argv : list string) (w : world)
    : Z * world :=
  (1, set_end_parsing 1 w).

(** [( *command->func)(argc, argv)]. *)
Definition invoke (f : cmd_func_t) (argc : Z) (argv : list string) (w : world)
    : Z * world :=
  let w := log_call (mk_call f argc argv) w in
  match f with
  | fn_help => help_cmd_func argc argv w
  | fn_end => end_cmd_func argc argv w
  | fn_user g => (g argc argv, w)
  end.

(** ** The dispatch loop *)

(** The loop body from [token = strtok (strbuff, " .,")] on, for the string
    [line] in [strbuff]: the new [count] and world. *)
Definition dispatch (line : string) (count : Z) (w : world)
    : outcome (Z * world) :=
  let token := strtok line in
  command <- find_command (option_map fst token) (head (cmd_list w)) ;;
  w <- match command, token with
       | Some command, Some (_, save) =>
         let argv := collect_args MAX_ARGC save in
         let argc := Z.of_nat (List.length argv) in
         if argc <? min_arg command then
           Ok (printf [OutTooFew count (cmd_str command) (min_arg command)] w)
         else if argc >? max_arg command then
           Ok (printf [OutTooMany count (cmd_str command) (max_arg command)] w)
         else
           let (r, w) := invoke (func command) argc argv w in
           Ok (printf [OutResult count r] w)
       | None, Some (tok, _) => Ok (printf [OutUnknown count tok] w)
       | _, None => Undefined NullDeref        (* "%s" of a NULL token *)
       end ;;
  Ok (count + 1, printf [OutChar LF] w).

(** Does the log of stores stay inside an array of [n] bytes? *)
Definition in_bounds (n : Z) (offsets : list Z) : bool :=
  forallb (fun i => (0 <=? i) && (i <? n)) offsets.

(** One pass through the body of [while (end_parsing == 0)].  [strbuff] has
    [MAX_INPUT_BUFFER] bytes; a store of [input] outside it is undefined. *)
Definition scp_parse_body (strbuff : memory) (count : Z) (w : world)
    : outcome (memory * Z * world) :=
  let w := printf [OutPrompt count] w in
  match input strbuff MAX_INPUT_BUFFER w with
  | None => OutOfFuel
  | Some (length, strbuff, offsets, w) =>
    if in_bounds MAX_INPUT_BUFFER offsets then
      let w := printf [OutChar LF] w in
      if length =? 0 then Ok (strbuff, count, w)        (* continue *)
      else
        '(count, w) <- dispatch (c_str strbuff 0 (Z.to_nat MAX_INPUT_BUFFER))
                                count w ;;
        Ok (strbuff, count, w)
    else Undefined OutOfBounds
  end.

Fixpoint scp_parse_loop (fuel : nat) (strbuff : memory) (count : Z) (w : world)
    : outcome world :=
  match fuel with
  | O => OutOfFuel
  | S fuel' =>
    if end_parsing w =? 0 then
      '(strbuff, count, w) <- scp_parse_body strbuff count w ;;
      scp_parse_loop fuel' strbuff count w
    else Ok w
  end.

(** [scp_parse].  [strbuff] is a local array: its initial bytes are
    whatever the stack holds. *)
Definition scp_parse (fuel : nat) (strbuff : memory) (w : world)
    : outcome world :=
  let (_, w) := help_cmd_func 0 [] w in
  scp_parse_loop fuel strbuff 1 w.

(** ** Vocabulary of the statements *)

(** The token is the descriptor's full name or its abbreviation (string
    equality, hence case-sensitive). *)
Definition named_by (tok : string) (c : command_t) : Prop :=
  cmd_str c = tok \/ abbr_str c = Some tok.

(** The worlds a client can build before calling [scp_parse]: [scp_init] on
    the zero-initialised statics, then any number of [scp_add_command]. *)
Inductive setup (do_not_exit : Z) : world -> Prop :=
| setup_init nodes keys w :
    scp_init do_not_exit (boot nodes keys) = Ok w ->
    setup do_not_exit w
| setup_add w cmd abbr help mn mx f w' :
    setup do_not_exit w ->
    scp_add_command cmd abbr help mn mx f w = Ok w' ->
    setup do_not_exit w'.

(** Keys of the reader: the two that erase, and those that are stored. *)
Definition is_erase (k : ascii) : bool :=
  (k =? BS)%char || (k =? DEL)%char.

Definition is_ordinary (c : ascii) : bool :=
  negb (c =? BS)%char && negb (c =? DEL)%char &&
  negb (c =? CR)%char && negb (c =? LF)%char.

(** The loop invariant of [input]: the position is inside [0, len] and every store so
    far went to an offset inside [0, len). *)
Definition reader_ok (len : Z) (r : reader) : Prop :=
  0 <= ptr r <= Z.max 0 len /\ Forall (fun i => 0 <= i < len) (written r).

(** Has the descriptor a built-in 'end' handler? *)
Definition is_end (c : command_t) : bool :=
  match func c with fn_end => true | _ => false end.

(** Sample data for the concrete instances below. *)
Definition keys_of (s : string) : list ascii := list_ascii_of_string s.
Definition zeros : memory := fun _ => NUL.
Definition count_args : Z -> list string -> Z := fun argc _ => argc.
Definition add_cmd : command_t :=
  mk_command "add" (Some "a") "Add <P1> to <P2> [... to <P5>]" 2 5
             (fn_user count_args).
Definition help_cmd : command_t :=
  mk_command "help" (Some "h") "Lists all commands available." 0 0 fn_help.
Definition end_cmd : command_t :=
  mk_command "end" (Some "end") "Exit the parser." 0 0 fn_end.

(** The configuration of [parser_example.c] up to its first registration. *)
Definition initialised : world :=
  mk_world (mk_list [help_cmd; end_cmd] 2) 0 6 [] [] [].

(** A line that leaves one free byte in [strbuff]. *)
Definition full_but_one : list ascii := repeat "a"%char 127.

(** The value [input] returns and the offsets it stored to. *)
Definition input_result (in_buffer : memory) (len : Z) (w : world)
    : option (Z * list Z) :=
  match input in_buffer len w with
  | Some (n, _, offsets, _) => Some (n, offsets)
  | None => None
  end.

(** A command taking up to [MAX_ARGC] arguments, and a registry with it. *)
Definition set_cmd : command_t :=
  mk_command "set" (Some "s") "Set up to six pins." 1 6 (fn_user count_args).
Definition with_set : world :=
  mk_world (mk_list [help_cmd; end_cmd; set_cmd] 3) 0 5 [] [] [].

(** Is the item a too-many-arguments report? *)
Definition is_too_many (o : out_item) : bool :=
  match o with OutTooMany _ _ _ => true | _ => false end.

(** Is the item a plain character (echo, newline)? *)
Definition is_out_char (o : out_item) : bool :=
  match o with OutChar _ => true | _ => false end.

(** [n] passes through the loop body, one after the other. *)
Fixpoint passes (n : nat) (strbuff : memory) (count : Z) (w : world)
    : outcome (memory * Z * world) :=
  match n with
  | O => Ok (strbuff, count, w)
  | S n' =>
    '(strbuff, count, w) <- scp_parse_body strbuff count w ;;
    passes n' strbuff count w
  end.

(** The registry [scp_init] builds. *)
Definition builtins (do_not_exit : Z) : list command_t :=
  if do_not_exit =? 0 then [help_cmd; end_cmd] else [help_cmd].

(** [strbuff] after the line "end" was read into it. *)
Definition end_typed (strbuff : memory) : memory :=
  store (store (store (store (store strbuff 0 "e"%char) 1 "n"%char)
                      2 "d"%char) 3 LF) 3 NUL.

(** The example program at its prompt, the user about to type "end". *)
Definition end_session : world :=
  mk_world (mk_list [help_cmd; end_cmd] 2) 0 6 (keys_of "end" ++ [LF]) [] [].

(** A session: a command, an unknown word, too few arguments, more than
    [MAX_ARGC] arguments, an empty line, and "end". *)
Definition session : list ascii :=
  keys_of "set 1 2 3" ++ LF :: keys_of "foo" ++ LF :: keys_of "s" ++ LF ::
  keys_of "set 1,2,3,4,5,6,7" ++ LF :: LF :: keys_of "end" ++ LF ::
  keys_of "rest".

(** What a run printed, the echo and the newlines left out. *)
Definition reports (o : outcome world) : option (list out_item) :=
  match o with
  | Ok w => Some (filter (fun i => negb (is_out_char i)) (stdout w))
  | _ => None
  end.

(** A token as a handler sees it: not empty, no delimiter inside. *)
Definition is_token (s : string) : bool :=
  negb (s =? "")%string &&
  forallb (fun c => negb (is_delim c)) (list_ascii_of_string s).

(** The answers of the loop: one of the four "Out[n]> ..." lines. *)
Definition is_report (o : out_item) : bool :=
  match o with
  | OutTooFew _ _ _ | OutTooMany _ _ _ | OutResult _ _ | OutUnknown _ _ => true
  | _ => false
  end.

Definition count_reports (out : list out_item) : Z :=
  Z.of_nat (List.length (filter is_report out)).

(** ** The example program ([parser_example.c]) *)

(** [int] is 32 bits wide on the platforms the module supports; signed
    overflow is undefined. *)
Definition INT_MIN : Z := -2147483648.
Definition INT_MAX : Z := 2147483647.

Definition int_range (r : Z) : bool := (INT_MIN <=? r) && (r <=? INT_MAX).

(** The handlers of the example, over the [atoi] of the C library.  The
    result is [None] when the C function is undefined: an [int] overflows,
    or [argv] has fewer than [argc] entries. *)
Section ExampleHandlers.

Variable atoi : string -> Z.

(** [for (idx = ...; idx < argc; idx++) result += atoi (argv[idx]);] with
    [todo = argc - idx]. *)
Fixpoint add_loop (argv : list string) (todo idx : nat) (result : Z)
    : option Z :=
  match todo with
  | O => Some result
  | S todo' =>
    match nth_error argv idx with
    | None => None
    | Some a =>
      let r := result + atoi a in
      if int_range r then add_loop argv todo' (S idx) r else None
    end
  end.

(** [add_cmd_func]. *)
Definition add_cmd_func (argc : Z) (argv : list string) : option Z :=
  add_loop argv (Z.to_nat argc) 0 0.

(** [for (idx = 1; idx < argc; idx++) result -= atoi (argv[idx]);]. *)
Fixpoint sub_loop (argv : list string) (todo idx : nat) (result : Z)
    : option Z :=
  match todo with
  | O => Some result
  | S todo' =>
    match nth_error argv idx with
    | None => None
    | Some a =>
      let r := result - atoi a in
      if int_range r then sub_loop argv todo' (S idx) r else None
    end
  end.

(** [sub_cmd_func]. *)
Definition sub_cmd_func (argc : Z) (argv : list string) : option Z :=
  if 1 <=? argc then
    match nth_error argv 0 with
    | None => None
    | Some a => sub_loop argv (Z.to_nat (argc - 1)) 1 (atoi a)
    end
  else Some 0.

End ExampleHandlers.

(** [main] of [parser_example.c], returning its exit status.  The parser
    calls a handler as a function of [argc] and [argv]; [add_fn] and
    [sub_fn] stand for the two handlers as such functions (the statements
    below take them to agree with [add_cmd_func] and [sub_cmd_func] wherever
    those are defined). *)
Definition main (add_fn sub_fn : Z -> list string -> Z) (fuel : nat)
    (strbuff : memory) (w : world) : outcome (Z * world) :=
  w <- scp_init 0 w ;;
  w <- scp_add_command (Some "add") (Some "a")
         (Some "Add <P1> to <P2> [... to <P5>]") 2 5 (Some add_fn) w ;;
  w <- scp_add_command (Some "sub") (Some "s")
         (Some "Subtract <P2> from <P1>") 2 2 (Some sub_fn) w ;;
  let w := printf (map OutChar (keys_of "Simple Command Parser") ++ [OutChar LF])
                  w in
  w <- scp_parse fuel strbuff w ;;
  Ok (0, w).

(** A handler function that implements a C handler. *)
Definition implements (fn : Z -> list string -> Z)
    (c_func : Z -> list string -> option Z) : Prop :=
  forall argc argv r, c_func argc argv = Some r -> fn argc argv = r.

(** The sum of a list of integers. *)
Definition Zsum (l : list Z) : Z := fold_right Z.add 0 l.

(** A string that can be typed on one line and read back: no editing key,
    no line end, no NUL. *)
Definition typable (s : string) : bool :=
  forallb (fun c => is_ordinary c && negb (c =? NUL)%char)
          (list_ascii_of_string s).

(** A reader of plain decimal numerals, to run the example handlers on in
    the concrete instances: an optional minus sign, then digits up to the
    first other character.  It is not [atoi]: it skips no leading white
    space and reads no plus sign; the two agree on a string of digits with
    an optional minus sign whose value fits an [int]. *)
Definition digit (c : ascii) : option Z :=
  let n := Z.of_nat (nat_of_ascii c) in
  if (48 <=? n) && (n <=? 57) then Some (n - 48) else None.

Fixpoint digits_value (s : string) (acc : Z) : Z :=
  match s with
  | "" => acc
  | String c s' =>
    match digit c with
    | Some d => digits_value s' (10 * acc + d)
    | None => acc
    end
  end.

Definition decimal (s : string) : Z :=
  match s with
  | String "-" s' => - digits_value s' 0
  | _ => digits_value s 0
  end.

(** The two descriptors [main] registers. *)
Definition example_add (add_fn : Z -> list string -> Z) : command_t :=
  mk_command "add" (Some "a") "Add <P1> to <P2> [... to <P5>]" 2 5
             (fn_user add_fn).
Definition example_sub (sub_fn : Z -> list string -> Z) : command_t :=
  mk_command "sub" (Some "s") "Subtract <P2> from <P1>" 2 2 (fn_user sub_fn).

(** The C handler as a function: its result where it is defined. *)
Definition as_handler (c_func : Z -> list string -> option Z)
    : Z -> list string -> Z :=
  fun argc argv => match c_func argc argv with Some r => r | None => 0 end.

(** ** The first version of the program

    [simple_command_parser.c] starts with the program the module grew out
    of: a fixed table of two commands, [input] without the newline test, and
    the loop in [main], with ["end"] tested by hand and an [argv] of five
    entries.  It reads the keyboard with [getch], which waits when no key
    is there: a run that has used up its keys is [Waiting]. *)
Module V1.

Record command_t : Type := mk_command {
  command_str : string;
  abbrev_str : string;
  help_str : string;
  min_arg : Z;
  max_arg : Z;
  func : Z -> list string -> option Z
}.

Section Program.

Variable atoi : string -> Z.

Definition add_cmd : command_t :=
  mk_command "add" "a" "Add up to five integers." 2 5 (add_cmd_func atoi).
Definition sub_cmd : command_t :=
  mk_command "sub" "s" "Subtract p2 from p1." 2 2 (sub_cmd_func atoi).

(** [commands], of [command_num] entries. *)
Definition commands : list command_t := [add_cmd; sub_cmd].

(** The sizes of [strbuff] and [argv] in [main]. *)
Definition STRBUFF_SIZE : Z := 256.
Definition ARGV_SIZE : nat := 5.

(** One evaluation of [( *ptr = getch ()) != '\r' && ptr < max] and of the
    loop body. *)
Definition input_iter (len : Z) (r : reader) (ch : ascii) : loop_ctl :=
  let r := poke ch r in
  if negb (ch =? CR)%char && (ptr r <? len) then
    if (ch =? BS)%char || (ch =? DEL)%char then
      if 0 <? ptr r then Continue (erase r) else Continue r
    else Continue (putch r)
  else Break r.

(** The loop of [input]; [None]: the keys are used up, [getch] waits. *)
Fixpoint input_loop (len : Z) (r : reader) (keys : list ascii)
    : option (reader * list ascii) :=
  match keys with
  | [] => None
  | ch :: keys' =>
    match input_iter len r ch with
    | Continue r' => input_loop len r' keys'
    | Break r' => Some (r', keys')
    end
  end.

(** [input]: the value returned, the memory, the offsets stored to, the
    echo and the keys left. *)
Definition input (in_buffer : memory) (len : Z) (keys : list ascii)
    : option (Z * memory * list Z * list out_item * list ascii) :=
  match input_loop len (reader_init in_buffer) keys with
  | None => None
  | Some (r, keys') =>
    let r := poke NUL r in
    Some (ptr r, mem r, written r, echoed r, keys')
  end.

(** [find_command]: the table is searched in index order. *)
Fixpoint find_command (name : string) (table : list command_t)
    : option command_t :=
  match table with
  | [] => None
  | c :: table' =>
    if (name =? command_str c)%string || (name =? abbrev_str c)%string
    then Some c
    else find_command name table'
  end.

(** What the program prints. *)
Inductive report : Type :=
| Banner                                   (* "Simple Command Parser\n\n" *)
| ListHeader                               (* "  Command  Abbr  args(max)  Description" *)
| ListRow (c : command_t)                  (* one row per command *)
| ListEnd                                  (* "  end\n\n" *)
| Prompt (count : Z)                       (* "Command[%3d]> " *)
| Echoed (o : out_item)                    (* what [input] echoes *)
| Newline                                  (* "\n" *)
| TooFew (count n : Z)                     (* "... too few args (less than %d)!" *)
| TooMany (count n : Z)                    (* "... too many args (more than %d)!" *)
| Result (count r : Z)                     (* "Output [%3d]> %d" *)
| Unknown (count : Z) (token : string).    (* "... Unknown Command: %s" *)

(** The ways a run goes wrong. *)
Inductive fault : Type :=
| NullToken          (* strcmp (token, "end") with token NULL *)
| ArgvOverflow       (* argv[argc++] = token with argc = 5 *)
| StrbuffOverflow    (* input stores to strbuff[256] *)
| HandlerUndefined.  (* the handler overflows an int *)

(** [while ((token = strtok (NULL, " .,")) != NULL) argv[argc++] = token;]
    with [slots] the entries of [argv] still free; [None]: a store past
    the last entry. *)
Fixpoint collect_args (slots : nat) (save : string) : option (list string) :=
  match strtok save with
  | None => Some []
  | Some (token, save') =>
    match slots with
    | O => None
    | S slots' =>
      match collect_args slots' save' with
      | None => None
      | Some argv => Some (token :: argv)
      end
    end
  end.

(** The locals of [main] and the terminal. *)
Record state : Type := mk_state {
  strbuff : memory;
  count : Z;
  keys : list ascii;
  out : list report
}.

Inductive pass_result : Type :=
| Next (s : state)        (* to the next prompt *)
| Stop (s : state)        (* break: main returns 0 *)
| Fault (f : fault)
| Waiting.

(** The loop body from [token = strtok (strbuff, " .,")] on, for the string
    [line] in [strbuff]. *)
Definition dispatch (line : string) (s : state) : pass_result :=
  match strtok line with
  | None => Fault NullToken
  | Some (token, save) =>
    if (token =? "end")%string then Stop s
    else
      match find_command token commands with
      | Some command =>
        match collect_args ARGV_SIZE save with
        | None => Fault ArgvOverflow
        | Some argv =>
          let argc := Z.of_nat (List.length argv) in
          let finish o :=
            Next (mk_state (strbuff s) (count s + 1) (keys s)
                           (out s ++ [o; Newline])) in
          if argc <? min_arg command then
            finish (TooFew (count s) (min_arg command))
          else if argc >? max_arg command then
            finish (TooMany (count s) (min_arg command))
          else
            match func command argc argv with
            | None => Fault HandlerUndefined
            | Some r => finish (Result (count s) r)
            end
        end
      | None =>
        Next (mk_state (strbuff s) (count s + 1) (keys s)
                       (out s ++ [Unknown (count s) token; Newline]))
      end
  end.

(** One pass through [while (1)]. *)
Definition pass (s : state) : pass_result :=
  match input (strbuff s) STRBUFF_SIZE (keys s) with
  | None => Waiting
  | Some (length, buf, offsets, echo, keys') =>
    if in_bounds STRBUFF_SIZE offsets then
      dispatch (c_str buf 0 (Z.to_nat STRBUFF_SIZE))
               (mk_state buf (count s) keys'
                  (out s ++ Prompt (count s) :: map Echoed echo ++ [Newline]))
    else Fault StrbuffOverflow
  end.

Fixpoint main_loop (fuel : nat) (s : state) : option pass_result :=
  match fuel with
  | O => None
  | S fuel' =>
    match pass s with
    | Next s' => main_loop fuel' s'
    | r => Some r
    end
  end.

(** [main]: [Stop] stands for [return 0]. *)
Definition main (fuel : nat) (strbuff : memory) (keys : list ascii)
    : option pass_result :=
  main_loop fuel
    (mk_state strbuff 1 keys
       ([Banner; ListHeader] ++ map ListRow commands ++ [ListEnd])).

End Program.

End V1.

(** A command that asks for more arguments than the loop collects. *)
Definition wide_cmd : command_t :=
  mk_command "wide" (Some "w") "Needs seven or eight pins." 7 8
             (fn_user count_args).
Definition with_wide : world :=
  mk_world (mk_list [help_cmd; end_cmd; wide_cmd] 3) 0 5 [] [] [].

(** The keys that end a line. *)
Definition is_line_end (c : ascii) : bool := (c =? CR)%char || (c =? LF)%char.

(** The example program at its prompt, the stream ending inside the second
    line. *)
Definition cut_session : world :=
  mk_world (mk_list [help_cmd; end_cmd] 2) 0 6
           (keys_of "help" ++ [LF] ++ keys_of "en") [] [].

(** Is the handler one of the module's own? *)
Definition is_builtin (f : cmd_func_t) : bool :=
  match f with fn_help | fn_end => true | fn_user _ => false end.

(** * Registry: lookup *)

Lemma name_matches_spec tok c : name_matches tok c = true <-> named_by tok c.
Proof.
  unfold name_matches, named_by. rewrite orb_true_iff, String.eqb_eq.
  destruct (abbr_str c) as [a|].
  - rewrite String.eqb_eq. split; intros [H|H]; subst; auto.
    inversion H; auto.
  - split; intros [H|H]; subst; auto; discriminate.
Qed.

Lemma name_matches_false tok c : name_matches tok c = false <-> ~ named_by tok c.
Proof.
  rewrite <- name_matches_spec. destruct (name_matches tok c); split; congruence.
Qed.

(** The loop of [find_command] is a linear search for the first match. *)
Lemma find_command_find tok l :
  find_command (Some tok) l = Ok (find (name_matches tok) l).
Proof.
  induction l as [|c l IH]; simpl; [reflexivity|].
  destruct (name_matches tok c); [reflexivity | exact IH].
Qed.

Lemma find_first_match {A} (p : A -> bool) l c :
  find p l = Some c <->
  exists before after,
    l = before ++ c :: after /\ p c = true /\ Forall (fun d => p d = false) before.
Proof.
  split.
  - induction l as [|d l IH]; simpl; [discriminate|].
    destruct (p d) eqn:E.
    + intros [= ->]. exists [], l. auto.
    + intros H. destruct (IH H) as (b & a & -> & Hc & Hb).
      exists (d :: b), a. auto.
  - intros (b & a & -> & Hc & Hb). induction Hb as [|d b Hd _ IH]; simpl.
    + now rewrite Hc.
    + now rewrite Hd.
Qed.

Lemma find_no_match {A} (p : A -> bool) l :
  find p l = None <-> Forall (fun d => p d = false) l.
Proof.
  induction l as [|d l IH]; simpl.
  - split; auto.
  - destruct (p d) eqn:E; split; intros H.
    + discriminate.
    + inversion H; congruence.
    + constructor; [assumption | now apply IH].
    + inversion H; now apply IH.
Qed.

Lemma find_some_of_In {A} (p : A -> bool) l c :
  In c l -> p c = true -> exists d, find p l = Some d /\ p d = true.
Proof.
  induction l as [|e l IH]; simpl; [contradiction|].
  intros [->|Hin] Hc.
  - rewrite Hc. eauto.
  - destruct (p e) eqn:E; eauto.
Qed.

(** C3: for every token and every registry, [find_command] returns the
    earliest-registered descriptor whose full name or abbreviation equals the
    token, and none when no descriptor is named by the token; the full name
    and the abbreviation of every registered command are found. *)
Theorem find_command_earliest_match (tok : string) (l : list command_t) :
  (forall c,
     find_command (Some tok) l = Ok (Some c) <->
     exists before after,
       l = before ++ c :: after /\ named_by tok c /\
       Forall (fun d => ~ named_by tok d) before) /\
  (find_command (Some tok) l = Ok None <->
     Forall (fun d => ~ named_by tok d) l) /\
  (forall c, In c l ->
     (exists d, find_command (Some (cmd_str c)) l = Ok (Some d) /\
                named_by (cmd_str c) d) /\
     (forall a, abbr_str c = Some a ->
        exists d, find_command (Some a) l = Ok (Some d) /\ named_by a d)).
Proof.
  repeat split.
  - rewrite find_command_find. intros [= H].
    apply find_first_match in H. destruct H as (b & a & -> & Hc & Hb).
    exists b, a. repeat split; [now apply name_matches_spec|].
    eapply Forall_impl; [|exact Hb]. intros d. apply name_matches_false.
  - intros (b & a & -> & Hc & Hb). rewrite find_command_find. f_equal.
    apply find_first_match. exists b, a. repeat split.
    + now apply name_matches_spec.
    + eapply Forall_impl; [|exact Hb]. intros d. apply name_matches_false.
  - rewrite find_command_find. intros [= H]. apply find_no_match in H.
    eapply Forall_impl; [|exact H]. intros d. apply name_matches_false.
  - intros H. rewrite find_command_find. f_equal. apply find_no_match.
    eapply Forall_impl; [|exact H]. intros d. apply name_matches_false.
  - destruct (find_some_of_In (name_matches (cmd_str c)) l c) as (d & Hd & Hm);
      [assumption | apply name_matches_spec; now left |].
    exists d. rewrite find_command_find, Hd. split; [reflexivity|].
    now apply name_matches_spec.
  - intros a Ha.
    destruct (find_some_of_In (name_matches a) l c) as (d & Hd & Hm);
      [assumption | apply name_matches_spec; now right |].
    exists d. rewrite find_command_find, Hd. split; [reflexivity|].
    now apply name_matches_spec.
Qed.

(** The comparison is [strcmp]: "HELP" and "End" name no built-in command. *)
Example find_command_is_case_sensitive :
  find_command (Some "HELP") [help_cmd; end_cmd] = Ok None /\
  find_command (Some "End") [help_cmd; end_cmd] = Ok None /\
  find_command (Some "h") [help_cmd; end_cmd] = Ok (Some help_cmd).
Proof. repeat split. Qed.

(** * Registry: registration *)

Lemma scp_init_boot : scp_init 0 (boot 8 []) = Ok initialised.
Proof. reflexivity. Qed.

Lemma is_null_false {A} (l : list A) : l <> [] -> is_null l = false.
Proof. destruct l; [congruence | reflexivity]. Qed.

(** A registration that passes every check appends one node. *)
Lemma scp_add_command_ok cs ab hs mn mx g w :
  head (cmd_list w) <> [] ->
  (0 < heap_nodes w)%nat ->
  (String.length cs < MAX_CMD_STR)%nat ->
  (String.length ab < MAX_ABBR_STR)%nat ->
  (String.length hs < MAX_HELP_STR)%nat ->
  mn <= mx ->
  scp_add_command (Some cs) (Some ab) (Some hs) mn mx (Some g) w =
  Ok (set_cmd_list
        (mk_list (head (cmd_list w) ++ [mk_command cs (Some ab) hs mn mx (fn_user g)])
                 (size (cmd_list w) + 1))
        (set_heap_nodes (pred (heap_nodes w)) w)).
Proof.
  intros Hh Hn Hc Ha Hl Hm. unfold scp_add_command, new_command, strlen.
  rewrite (is_null_false _ Hh). simpl.
  apply Z.leb_le in Hm. rewrite Hm.
  apply Nat.ltb_lt in Hc, Ha, Hl. rewrite Hc. simpl. rewrite Ha, Hl.
  destruct (heap_nodes w) as [|n]; [lia | reflexivity].
Qed.

(** C5, as stated, fails: a call whose name and help are within their
    limits, with a handler and [min_arg <= max_arg], still trips an assertion
    when its abbreviation has more than 4 characters, and when the parser
    was not initialised. *)
Lemma scp_add_command_long_abbreviation_aborts :
  (String.length "add" <= 10)%nat /\
  (String.length "Add numbers" <= 40)%nat /\
  2 <= 5 /\
  scp_add_command (Some "add") (Some "toolong") (Some "Add numbers") 2 5
                  (Some count_args) initialised
    = AssertFail A_abbr_len /\
  scp_add_command (Some "add") (Some "a") (Some "Add numbers") 2 5
                  (Some count_args) (boot 8 [])
    = AssertFail A_initialised.
Proof. repeat split; try reflexivity; simpl; lia. Qed.

(** C5, amended: [scp_add_command] aborts on an assertion whenever the name
    has more than 10 characters or [min_arg > max_arg] and, an abbreviation
    being given, whenever the abbreviation has more than 4 or the help text
    more than 40 characters; a call after initialisation, with a node left to
    allocate, non-null name, abbreviation, help and handler within the
    limits 10 / 4 / 40 and [min_arg <= max_arg] trips no assertion and
    appends the command to the registry. *)
Theorem scp_add_command_contract (cmd abbr help : option string) (mn mx : Z)
    (f : option (Z -> list string -> Z)) (w : world) :
  ((exists s, cmd = Some s /\ (10 < String.length s)%nat) \/ mx < mn \/
   (exists a, abbr = Some a /\
      ((4 < String.length a)%nat \/
       exists h, help = Some h /\ (40 < String.length h)%nat)) ->
   exists a, scp_add_command cmd abbr help mn mx f w = AssertFail a) /\
  (forall cs ab hs g,
     cmd = Some cs -> abbr = Some ab -> help = Some hs -> f = Some g ->
     head (cmd_list w) <> [] -> (0 < heap_nodes w)%nat ->
     (String.length cs <= 10)%nat -> (String.length ab <= 4)%nat ->
     (String.length hs <= 40)%nat -> mn <= mx ->
     exists w',
       scp_add_command cmd abbr help mn mx f w = Ok w' /\
       head (cmd_list w') =
         head (cmd_list w) ++ [mk_command cs (Some ab) hs mn mx (fn_user g)] /\
       size (cmd_list w') = size (cmd_list w) + 1 /\
       end_parsing w' = end_parsing w).
Proof.
  split.
  - intros H. unfold scp_add_command.
    destruct (is_null (head (cmd_list w))); simpl; [eauto|].
    destruct cmd as [cs|]; [|eauto]. destruct help as [hs|]; [|eauto].
    destruct (mn <=? mx) eqn:Em; [|eauto].
    destruct f as [g|]; [|eauto].
    destruct (String.length cs <? MAX_CMD_STR)%nat eqn:Ec; [|eauto].
    apply Z.leb_le in Em. apply Nat.ltb_lt in Ec. unfold MAX_CMD_STR in Ec.
    destruct H as [(s & [= <-] & Hs) | [Hm | (a & -> & Ha)]]; [lia | lia |].
    simpl.
    destruct (String.length a <? MAX_ABBR_STR)%nat eqn:Ea; [|eauto].
    destruct (String.length hs <? MAX_HELP_STR)%nat eqn:Eh; [|eauto].
    apply Nat.ltb_lt in Ea, Eh. unfold MAX_ABBR_STR in Ea.
    unfold MAX_HELP_STR in Eh.
    destruct Ha as [Ha | (h & [= <-] & Hh)]; lia.
  - intros cs ab hs g -> -> -> -> Hh Hn Hc Ha Hl Hm.
    rewrite scp_add_command_ok by (unfold MAX_CMD_STR, MAX_ABBR_STR, MAX_HELP_STR; lia || assumption).
    eexists. split; [reflexivity|]. simpl. auto.
Qed.

Lemma scp_add_command_contract_witness :
  exists w',
    scp_add_command (Some "add") (Some "a")
                    (Some "Add <P1> to <P2> [... to <P5>]") 2 5
                    (Some count_args) initialised = Ok w' /\
    head (cmd_list w') = head (cmd_list initialised) ++ [add_cmd] /\
    size (cmd_list w') = size (cmd_list initialised) + 1 /\
    end_parsing w' = end_parsing initialised.
Proof.
  apply (proj2 (scp_add_command_contract
                  (Some "add") (Some "a")
                  (Some "Add <P1> to <P2> [... to <P5>]") 2 5
                  (Some count_args) initialised)
               "add" "a" "Add <P1> to <P2> [... to <P5>]" count_args);
    try reflexivity; simpl; try lia; discriminate.
Defined.

(** A descriptor without abbreviation is matched by its full name only. *)
Lemma name_matches_no_abbreviation tok c :
  abbr_str c = None -> name_matches tok c = (tok =? cmd_str c)%string.
Proof. intros H. unfold name_matches. rewrite H. apply orb_false_r. Qed.

(** C8: on a NULL abbreviation the code evaluates [strlen (abbr_str)] inside
    its length assertion, although every other parameter is valid: the call
    does not register the command, it dereferences NULL. *)
Theorem scp_add_command_null_abbreviation :
  scp_init 0 (boot 8 []) = Ok initialised /\
  scp_add_command (Some "led") None (Some "Toggle the LED") 0 1
                  (Some count_args) initialised = Undefined NullDeref.
Proof. split; reflexivity. Qed.

(** * The line reader *)

Section Reader.

Variable len : Z.

(** The four ways through one iteration. *)
Lemma input_iter_cases (r : reader) (ch : ascii) :
  (input_iter len r ch = Break (poke ch r) /\
     (ch = CR \/ ch = LF \/ len <= ptr r)) \/
  (input_iter len r ch = Continue (erase (poke ch r)) /\
     is_erase ch = true /\ 0 < ptr r < len) \/
  (input_iter len r ch = Continue (poke ch r) /\
     is_erase ch = true /\ ptr r <= 0 /\ ptr r < len) \/
  (input_iter len r ch = Continue (putch (poke ch r)) /\
     is_ordinary ch = true /\ ptr r < len).
Proof.
  unfold input_iter, is_erase, is_ordinary. simpl.
  destruct (Ascii.eqb_spec ch CR) as [->|Hcr]; [left; auto|].
  destruct (Ascii.eqb_spec ch LF) as [->|Hlf]; [left; auto|].
  destruct (Z.ltb_spec (ptr r) len) as [Hlt|Hge]; simpl; [|left; auto].
  destruct (Ascii.eqb_spec ch BS) as [->|Hbs]; simpl.
  - destruct (Z.ltb_spec 0 (ptr r)); [right; left | right; right; left];
      repeat split; auto; lia.
  - destruct (Ascii.eqb_spec ch DEL) as [->|Hdel]; simpl.
    + destruct (Z.ltb_spec 0 (ptr r)); [right; left | right; right; left];
        repeat split; auto; lia.
    + right; right; right. auto.
Qed.

Lemma reader_init_ok in_buffer : reader_ok len (reader_init in_buffer).
Proof. split; simpl; [lia | constructor]. Qed.

Lemma input_iter_continue_ok r ch r' :
  input_iter len r ch = Continue r' -> reader_ok len r -> reader_ok len r'.
Proof.
  intros H [Hp Hw].
  assert (Hpoke : ptr r < len -> Forall (fun i => 0 <= i < len) (written r ++ [ptr r])).
  { intros Hlt. apply Forall_app. split; [assumption|]. constructor; [lia | constructor]. }
  destruct (input_iter_cases r ch)
    as [[E _] | [[E (_ & Hr)] | [[E (_ & _ & Hr)] | [E (_ & Hr)]]]];
    rewrite E in H; inversion H; subst r'; clear H E;
    (split; simpl; [lia | apply Hpoke; lia]).
Qed.

Lemma input_iter_break r ch r' :
  input_iter len r ch = Break r' -> r' = poke ch r.
Proof.
  intros H.
  destruct (input_iter_cases r ch) as [[E _] | [[E _] | [[E _] | [E _]]]];
    rewrite E in H; now inversion H.
Qed.

(** What the loop leaves behind: a position in [0, len], and stores inside
    [0, len) except the last one, which went to the final position. *)
Lemma input_loop_spec fuel : forall r keys r' keys',
  input_loop fuel len r keys = Some (r', keys') ->
  reader_ok len r ->
  0 <= ptr r' <= Z.max 0 len /\
  exists ws, written r' = ws ++ [ptr r'] /\ Forall (fun i => 0 <= i < len) ws.
Proof.
  induction fuel as [|fuel IH]; intros r keys r' keys' H Hok; [discriminate|].
  simpl in H. destruct (GETCH keys) as [ch ks].
  destruct (input_iter len r ch) as [r1|r1] eqn:E.
  - eapply IH; [exact H|]. eapply input_iter_continue_ok; eassumption.
  - inversion H; subst r1 keys'; clear H.
    rewrite (input_iter_break _ _ _ E). destruct Hok as [Hp Hw]. simpl.
    split; [assumption|]. exists (written r). auto.
Qed.

(** The loop always comes to its end within [input_fuel] iterations. *)
Lemma input_loop_total fuel : forall r keys,
  0 <= ptr r ->
  (2 * List.length keys + Z.to_nat (len - ptr r) + 1 <= fuel)%nat ->
  exists res, input_loop fuel len r keys = Some res.
Proof.
  induction fuel as [|fuel IH]; intros r keys Hp Hf; [lia|].
  simpl. destruct keys as [|k ks]; simpl.
  - (* past the end of the stream: (char)EOF is stored *)
    destruct (input_iter_cases r EOF_char)
      as [[E _] | [[E (He & _)] | [[E (He & _)] | [E (_ & Hr)]]]];
      try discriminate He; rewrite E; [eauto|].
    apply IH; simpl; lia.
  - simpl in Hf.
    destruct (input_iter_cases r k)
      as [[E _] | [[E (_ & Hr)] | [[E (_ & Hr)] | [E (_ & Hr)]]]];
      rewrite E; [eauto | | |]; apply IH; simpl; lia.
Qed.

Lemma input_loop_more_fuel fuel : forall r keys res fuel',
  input_loop fuel len r keys = Some res -> (fuel <= fuel')%nat ->
  input_loop fuel' len r keys = Some res.
Proof.
  induction fuel as [|fuel IH]; intros r keys res fuel' H Hf; [discriminate|].
  destruct fuel' as [|fuel']; [lia|]. simpl in *.
  destruct (GETCH keys) as [ch ks].
  destruct (input_iter len r ch); [|assumption].
  apply IH; [assumption | lia].
Qed.

(** Typing continues where the prefix left the reader. *)
Lemma type_keys_app r p q :
  type_keys len r (p ++ q) =
  match type_keys len r p with
  | Continue r' => type_keys len r' q
  | Break r' => Break r'
  end.
Proof.
  revert r. induction p as [|k p IH]; intros r; simpl; [reflexivity|].
  destruct (input_iter len r k); [apply IH | reflexivity].
Qed.

Lemma type_keys_ok r p :
  reader_ok len r -> 0 <= ptr (reader_of (type_keys len r p)).
Proof.
  revert r. induction p as [|k p IH]; intros r Hok; simpl.
  - apply Hok.
  - destruct (input_iter len r k) as [r1|r1] eqn:E.
    + apply IH. eapply input_iter_continue_ok; eassumption.
    + rewrite (input_iter_break _ _ _ E). apply Hok.
Qed.

Lemma type_keys_continue_ok r p r' :
  type_keys len r p = Continue r' -> reader_ok len r -> reader_ok len r'.
Proof.
  revert r. induction p as [|k p IH]; intros r H Hok; simpl in H.
  - now inversion H; subst.
  - destruct (input_iter len r k) as [r1|r1] eqn:E; [|discriminate].
    eapply IH; [exact H|]. eapply input_iter_continue_ok; eassumption.
Qed.

(** The stored characters depend on the bytes below the position only. *)
Lemma stored_ext r r' :
  ptr r' = ptr r ->
  (forall i, 0 <= i < ptr r -> mem r' i = mem r i) ->
  stored r' = stored r.
Proof.
  intros Hp Hm. unfold stored. rewrite Hp. apply map_ext_in.
  intros i Hi. apply in_seq in Hi. apply Hm. lia.
Qed.

(** The loop run on a stream that starts with the keys [p]. *)
Lemma input_loop_type_keys p : forall fuel r rest r',
  type_keys len r p = Continue r' ->
  input_loop (List.length p + fuel) len r (p ++ rest) =
  input_loop fuel len r' rest.
Proof.
  induction p as [|k p IH]; intros fuel r rest r' H; simpl in *.
  - now inversion H.
  - destruct (input_iter len r k) as [r1|r1]; [|discriminate].
    now apply IH.
Qed.

End Reader.

(** [input] returns, whatever the stream and the length. *)
Lemma input_total in_buffer len w :
  exists res, input in_buffer len w = Some res.
Proof.
  unfold input.
  destruct (input_loop_total len (input_fuel len (stdin w))
              (reader_init in_buffer) (stdin w)) as [[r ks] E].
  - simpl; lia.
  - unfold input_fuel. simpl. rewrite Z.sub_0_r. lia.
  - rewrite E. eauto.
Qed.

Lemma in_bounds_app n l1 l2 :
  in_bounds n (l1 ++ l2) = in_bounds n l1 && in_bounds n l2.
Proof. apply forallb_app. Qed.

Lemma in_bounds_Forall n l :
  Forall (fun i => 0 <= i < n) l -> in_bounds n l = true.
Proof.
  intros H. apply forallb_forall. rewrite Forall_forall in H.
  intros i Hi. specialize (H i Hi). apply andb_true_iff.
  split; [apply Z.leb_le | apply Z.ltb_lt]; lia.
Qed.

(** The result of [input]: the value returned is a position in [0, len],
    the terminator stands there, and the stores stay inside the [len] bytes
    of the buffer exactly when fewer than [len] characters were stored. *)
Lemma input_spec in_buffer len w n m offsets w' :
  input in_buffer len w = Some (n, m, offsets, w') ->
  0 <= n <= Z.max 0 len /\ m n = NUL /\
  (exists ws, offsets = ws ++ [n; n] /\ Forall (fun i => 0 <= i < len) ws) /\
  (in_bounds len offsets = true <-> n < len) /\
  cmd_list w' = cmd_list w /\ end_parsing w' = end_parsing w /\
  calls w' = calls w.
Proof.
  unfold input.
  destruct (input_loop _ len _ _) as [[r ks]|] eqn:E; [|discriminate].
  intros H. inversion H; subst; clear H.
  destruct (input_loop_spec len _ _ _ _ _ E (reader_init_ok len in_buffer))
    as (Hp & ws & Hw & Hws).
  simpl. repeat split; try lia.
  - unfold store. now rewrite Z.eqb_refl.
  - exists ws. rewrite Hw, <- app_assoc. auto.
  - rewrite Hw, !in_bounds_app, (in_bounds_Forall _ _ Hws). simpl.
    rewrite !andb_true_iff, Z.ltb_lt. tauto.
  - intros Hlt. rewrite Hw, !in_bounds_app, (in_bounds_Forall _ _ Hws). simpl.
    rewrite !andb_true_iff, Z.ltb_lt, Z.leb_le. lia.
Qed.

(** C7, as stated, fails: when the character typed takes the last free
    position of the buffer, the next key ends the reading whatever it is; a
    backspace is then not an erasure and the character stays stored. *)
Lemma erase_after_last_position_keeps_the_key :
  is_ordinary "b" = true /\ is_erase BS = true /\
  stored (reader_of (type_keys MAX_INPUT_BUFFER (reader_init zeros)
                               (full_but_one ++ ["b"%char; BS])))
    = full_but_one ++ ["b"%char] /\
  stored (reader_of (type_keys MAX_INPUT_BUFFER (reader_init zeros)
                               full_but_one))
    = full_but_one /\
  stored (reader_of (type_keys MAX_INPUT_BUFFER (reader_init zeros)
                               (full_but_one ++ ["b"%char; BS])))
    <> stored (reader_of (type_keys MAX_INPUT_BUFFER (reader_init zeros)
                                    full_but_one)).
Proof.
  repeat split; try (vm_compute; reflexivity).
  vm_compute. discriminate.
Qed.

(** C7, amended: for every key sequence [p], ordinary character [c] and
    erasing key [k] (backspace or DEL), unless [p] leaves the reader running
    with exactly [len - 1] characters stored, the characters stored and the
    position after [p], [c], [k] are those after [p] alone; an erasing key
    typed when nothing is stored leaves the position at 0, and the position
    never goes below the start of the buffer. *)
Theorem erase_undoes_last_key (len : Z) (in_buffer : memory)
    (p : list ascii) (c k : ascii) :
  is_ordinary c = true ->
  is_erase k = true ->
  let before := type_keys len (reader_init in_buffer) p in
  let after := type_keys len (reader_init in_buffer) (p ++ [c; k]) in
  (~ (running before = true /\ ptr (reader_of before) = len - 1) ->
   stored (reader_of after) = stored (reader_of before) /\
   ptr (reader_of after) = ptr (reader_of before)) /\
  (ptr (reader_of before) = 0 ->
   ptr (reader_of (type_keys len (reader_init in_buffer) (p ++ [k]))) = 0) /\
  0 <= ptr (reader_of after).
Proof.
  intros Hc Hk before after.
  assert (Hcne : is_erase c = false).
  { unfold is_ordinary in Hc. unfold is_erase.
    destruct (c =? BS)%char; [discriminate|].
    destruct (c =? DEL)%char; [discriminate|reflexivity]. }
  assert (Hkne : is_ordinary k = false).
  { unfold is_erase in Hk. unfold is_ordinary.
    destruct (k =? BS)%char; [reflexivity|].
    destruct (k =? DEL)%char; [reflexivity|discriminate]. }
  assert (Hknl : k <> CR /\ k <> LF).
  { unfold is_erase in Hk. split; intros ->; discriminate. }
  assert (Hcnl : c <> CR /\ c <> LF).
  { split; intros ->; discriminate. }
  split; [|split].
  - (* typing [c] then [k] *)
    intros Hroom. subst before after. rewrite type_keys_app.
    destruct (type_keys len (reader_init in_buffer) p) as [r|r] eqn:Ep;
      [|auto].
    pose proof (type_keys_continue_ok _ _ _ _ Ep (reader_init_ok len in_buffer))
      as [Hp _].
    simpl in Hroom. simpl type_keys.
    destruct (input_iter_cases len r c)
      as [[E Hb] | [[E (He & _)] | [[E (He & _)] | [E (_ & Hr)]]]];
      try congruence; rewrite E.
    + (* the buffer was full already: [c] ends the reading *)
      simpl. split; [|reflexivity]. apply stored_ext; [reflexivity|].
      intros i Hi. simpl. unfold store.
      destruct (Z.eqb_spec i (ptr r)); [lia | reflexivity].
    + (* [c] is stored, [k] takes it back *)
      destruct (input_iter_cases len (putch (poke c r)) k)
        as [[E2 Hb] | [[E2 _] | [[E2 (_ & Hr2 & _)] | [E2 (Ho & _)]]]];
        try congruence; rewrite E2; simpl in *.
      * exfalso. destruct Hknl. destruct Hb as [?|[?|?]]; try contradiction.
        apply Hroom. split; [reflexivity | lia].
      * split; [|lia]. apply stored_ext; simpl; [lia|].
        intros i Hi. unfold store.
        destruct (Z.eqb_spec i (ptr r + 1)); [lia|].
        destruct (Z.eqb_spec i (ptr r)); [lia | reflexivity].
      * lia.
  - (* an erasing key at the start of the buffer *)
    intros H0. subst before. rewrite type_keys_app.
    destruct (type_keys len (reader_init in_buffer) p) as [r|r] eqn:Ep;
      [|exact H0].
    simpl in H0. simpl type_keys.
    destruct (input_iter_cases len r k)
      as [[E _] | [[E (_ & Hr)] | [[E _] | [E (Ho & _)]]]];
      try congruence; rewrite E; simpl; lia.
  - subst after. apply type_keys_ok, reader_init_ok.
Qed.

Lemma erase_undoes_last_key_witness :
  stored (reader_of (type_keys MAX_INPUT_BUFFER (reader_init zeros)
                               (keys_of "ad" ++ ["x"%char; BS])))
    = stored (reader_of (type_keys MAX_INPUT_BUFFER (reader_init zeros)
                                   (keys_of "ad"))).
Proof.
  apply (erase_undoes_last_key MAX_INPUT_BUFFER zeros (keys_of "ad")
                               "x"%char BS);
    [reflexivity | reflexivity | vm_compute; intros [_ H]; discriminate H].
Defined.

(** C2: [input] stores the character it reads before it tests [ptr < max],
    and writes the terminator where it stopped.  With a buffer of 1 byte and
    the keys "ab", 'a' goes to offset 0, 'b' and then the terminator to
    offset 1; with the 128 bytes of [strbuff] and a line of 128 characters,
    the key after them and the terminator go to offset 128, one byte past
    the buffer (by [input_spec], this happens whenever [len] characters are
    stored). *)
Theorem input_stores_past_the_buffer :
  input_result zeros 1 (boot 0 (keys_of "ab")) = Some (1, [0; 1; 1]) /\
  (exists offsets,
     input_result zeros MAX_INPUT_BUFFER
                  (boot 0 (full_but_one ++ keys_of "b" ++ [LF]))
       = Some (128, offsets) /\
     In 128 offsets /\
     in_bounds MAX_INPUT_BUFFER offsets = false) /\
  scp_parse_body zeros 1
                 (set_stdin (full_but_one ++ keys_of "b" ++ [LF]) initialised)
    = Undefined OutOfBounds.
Proof.
  split; [reflexivity|]. split.
  - eexists. split; [vm_compute; reflexivity|]. split.
    + repeat (first [left; reflexivity | right]).
    + vm_compute. reflexivity.
  - vm_compute. reflexivity.
Qed.

(** * Tokenizer *)

Lemma skip_delims_length s :
  (String.length (skip_delims s) <= String.length s)%nat.
Proof.
  induction s as [|c s IH]; simpl; [lia|].
  destruct (is_delim c); simpl; lia.
Qed.

Lemma skip_delims_head s c s' :
  skip_delims s = String c s' -> is_delim c = false.
Proof.
  induction s as [|d s IH]; simpl; [discriminate|].
  destruct (is_delim d) eqn:E; [exact IH|].
  intros [= -> ->]. exact E.
Qed.

Lemma scan_token_length s t save :
  scan_token s = (t, save) ->
  (String.length t + String.length save <= String.length s)%nat.
Proof.
  revert t save. induction s as [|c s IH]; simpl; intros t save.
  - intros [= <- <-]. simpl. lia.
  - destruct (is_delim c).
    + intros [= <- <-]. simpl. lia.
    + destruct (scan_token s) as [t' save'] eqn:E. intros [= <- <-].
      specialize (IH _ _ eq_refl). simpl. lia.
Qed.

(** Each call of [strtok] moves the saved position forward. *)
Lemma strtok_shrinks s t save :
  strtok s = Some (t, save) -> (String.length save < String.length s)%nat.
Proof.
  unfold strtok. pose proof (skip_delims_length s) as Hl.
  destruct (skip_delims s) as [|c s'] eqn:E; [discriminate|].
  apply skip_delims_head in E. intros [= H]. simpl in H. rewrite E in H.
  destruct (scan_token s') as [t' save'] eqn:E'. inversion H; subst.
  apply scan_token_length in E'. simpl in Hl. lia.
Qed.

(** A string of delimiters has no token: [strtok] returns NULL. *)
Lemma strtok_delims_only s :
  Forall (fun c => is_delim c = true) (list_ascii_of_string s) ->
  strtok s = None.
Proof.
  unfold strtok. induction s as [|c s IH]; simpl; intros H; [reflexivity|].
  inversion H as [|? ? Hc Hs]; subst. rewrite Hc. now apply IH.
Qed.

Lemma tokens_upto_enough n : forall m s,
  (String.length s < n)%nat -> (String.length s < m)%nat ->
  tokens_upto n s = tokens_upto m s.
Proof.
  induction n as [|n IH]; intros m s Hn Hm; [lia|].
  destruct m as [|m]; [lia|]. simpl.
  destruct (strtok s) as [[t save]|] eqn:E; [|reflexivity].
  apply strtok_shrinks in E. f_equal. apply IH; lia.
Qed.

Lemma tokens_unfold s :
  tokens s = match strtok s with
             | None => []
             | Some (t, save) => t :: tokens save
             end.
Proof.
  unfold tokens.
  change (tokens_upto (S (String.length s)) s)
    with (match strtok s with
          | None => []
          | Some (t, save) => t :: tokens_upto (String.length s) save
          end).
  destruct (strtok s) as [[t save]|] eqn:E; [|reflexivity].
  apply strtok_shrinks in E. f_equal. apply tokens_upto_enough; lia.
Qed.

(** The argument loop keeps the first [slots] tokens. *)
Lemma collect_args_firstn slots : forall save,
  collect_args slots save = firstn slots (tokens save).
Proof.
  induction slots as [|n IH]; intros save; simpl.
  - now destruct (strtok save) as [[t s]|].
  - rewrite tokens_unfold. destruct (strtok save) as [[t s]|]; [|reflexivity].
    simpl. now rewrite IH.
Qed.

Lemma collect_args_length slots save :
  (List.length (collect_args slots save) <= slots)%nat.
Proof. rewrite collect_args_firstn. apply firstn_le_length. Qed.

(** * Dispatch *)

Lemma find_command_In tok l c :
  find_command (Some tok) l = Ok (Some c) -> In c l.
Proof.
  rewrite find_command_find. intros [= H]. now apply find_some in H.
Qed.

Lemma help_rows_not_too_many l :
  existsb is_too_many (map help_row l) = false.
Proof. induction l as [|c l IH]; simpl; [reflexivity | exact IH]. Qed.

(** What a handler invocation does to the statics of the module. *)
Lemma invoke_spec f argc argv w :
  let (r, w') := invoke f argc argv w in
  calls w' = calls w ++ [mk_call f argc argv] /\
  cmd_list w' = cmd_list w /\
  stdin w' = stdin w /\
  (exists out, stdout w' = stdout w ++ out /\ existsb is_too_many out = false) /\
  end_parsing w' = match f with fn_end => 1 | _ => end_parsing w end.
Proof.
  destruct f; simpl; repeat split;
    try (exists []; split; [now rewrite app_nil_r | reflexivity]).
  eexists. rewrite <- !app_assoc. split; [reflexivity|].
  simpl. rewrite existsb_app, help_rows_not_too_many. reflexivity.
Qed.

(** The three ways through the body once the first token names a command. *)
Lemma dispatch_matched line count w tok save command :
  strtok line = Some (tok, save) ->
  find_command (Some tok) (head (cmd_list w)) = Ok (Some command) ->
  dispatch line count w =
  let argv := collect_args MAX_ARGC save in
  let argc := Z.of_nat (List.length argv) in
  if argc <? min_arg command then
    Ok (count + 1,
        printf [OutChar LF]
          (printf [OutTooFew count (cmd_str command) (min_arg command)] w))
  else if argc >? max_arg command then
    Ok (count + 1,
        printf [OutChar LF]
          (printf [OutTooMany count (cmd_str command) (max_arg command)] w))
  else
    let (r, w1) := invoke (func command) argc argv w in
    Ok (count + 1, printf [OutChar LF] (printf [OutResult count r] w1)).
Proof.
  intros Ht Hf. unfold dispatch. rewrite Ht. simpl option_map. rewrite Hf.
  simpl.
  destruct (_ <? min_arg command); [reflexivity|].
  destruct (_ >? max_arg command); [reflexivity|].
  destruct (invoke _ _ _ w). reflexivity.
Qed.

Lemma app_one_neq {A} (l : list A) (x : A) : l ++ [x] <> l.
Proof.
  intros H. apply (f_equal (@List.length A)) in H.
  rewrite length_app in H. simpl in H. lia.
Qed.

(** C1: for a line whose first token names a registered command with bounds
    [min_arg <= max_arg], the handler is invoked if and only if
    [min_arg <= argc <= max_arg], with the collected [argc] and [argv]: the
    value it returns on them is the one printed, and its effect is the one
    seen (the listing of 'help', the flag set by 'end').  Below the bounds a
    too-few report, above them a too-many report is printed, the handler is
    not invoked, and the pass ends like any other: flag and registry as
    before, counter advanced, back to the loop test. *)
Theorem dispatch_checks_arity (line : string) (count : Z) (w : world)
    (tok save : string) (command : command_t) :
  strtok line = Some (tok, save) ->
  find_command (Some tok) (head (cmd_list w)) = Ok (Some command) ->
  min_arg command <= max_arg command ->
  let argv := collect_args MAX_ARGC save in
  let argc := Z.of_nat (List.length argv) in
  exists w',
    dispatch line count w = Ok (count + 1, w') /\
    (calls w' = calls w ++ [mk_call (func command) argc argv] <->
     min_arg command <= argc <= max_arg command) /\
    (min_arg command <= argc <= max_arg command ->
     (exists r out,
        stdout w' = stdout w ++ out ++ [OutResult count r; OutChar LF]) /\
     (forall g, func command = fn_user g ->
        stdout w' = stdout w ++ [OutResult count (g argc argv); OutChar LF] /\
        end_parsing w' = end_parsing w) /\
     (func command = fn_help ->
        stdout w' = stdout w ++
          OutHelpHeader :: map help_row (head (cmd_list w)) ++
          [OutChar LF; OutResult count 1; OutChar LF] /\
        end_parsing w' = end_parsing w) /\
     (func command = fn_end ->
        stdout w' = stdout w ++ [OutResult count 1; OutChar LF] /\
        end_parsing w' = 1) /\
     cmd_list w' = cmd_list w) /\
    (argc < min_arg command ->
     calls w' = calls w /\
     stdout w' = stdout w ++
       [OutTooFew count (cmd_str command) (min_arg command); OutChar LF] /\
     end_parsing w' = end_parsing w /\ cmd_list w' = cmd_list w) /\
    (max_arg command < argc ->
     calls w' = calls w /\
     stdout w' = stdout w ++
       [OutTooMany count (cmd_str command) (max_arg command); OutChar LF] /\
     end_parsing w' = end_parsing w /\ cmd_list w' = cmd_list w).
Proof.
  intros Ht Hf Hb. cbv zeta.
  rewrite (dispatch_matched _ _ _ _ _ _ Ht Hf). cbv zeta.
  generalize (collect_args MAX_ARGC save). intros argv.
  generalize (Z.of_nat (List.length argv)). intros argc.
  destruct (Z.ltb_spec argc (min_arg command)) as [Hlo|Hlo].
  - eexists. split; [reflexivity|]. simpl.
    split; [split; [intros H; symmetry in H; now apply app_one_neq in H | lia]|].
    split; [lia|]. split; [|lia]. intros _.
    now rewrite <- app_assoc.
  - destruct (argc >? max_arg command) eqn:Ehi.
    + apply Z.gtb_lt in Ehi. eexists. split; [reflexivity|]. simpl.
      split; [split; [intros H; symmetry in H; now apply app_one_neq in H | lia]|].
      split; [lia|]. split; [lia|]. intros _.
      now rewrite <- app_assoc.
    + assert (Hle : argc <= max_arg command).
      { destruct (Z.gtb_spec argc (max_arg command)); [discriminate | lia]. }
      destruct (func command) as [| |g] eqn:Efn;
        cbn [invoke help_cmd_func end_cmd_func];
        (eexists; split; [reflexivity|]); simpl;
        (split; [split; [lia | intros _; reflexivity]|]);
        (split; [|split; lia]); intros _;
        (split; [|split; [|split; [|split]]]);
        try (intros H; discriminate H); try (intros g' H; discriminate H).
      * exists 1, (OutHelpHeader :: map help_row (head (cmd_list w)) ++ [OutChar LF]).
        rewrite <- !app_assoc. simpl. rewrite <- !app_assoc. reflexivity.
      * intros _. rewrite <- !app_assoc. simpl. auto.
      * reflexivity.
      * exists 1, []. rewrite <- !app_assoc. reflexivity.
      * intros _. rewrite <- !app_assoc. auto.
      * reflexivity.
      * exists (g argc argv), []. rewrite <- !app_assoc. reflexivity.
      * intros g' [= <-]. rewrite <- !app_assoc. auto.
      * reflexivity.
Qed.

Lemma dispatch_checks_arity_witness :
  exists w',
    dispatch "set 1 2 3" 7 with_set = Ok (7 + 1, w') /\
    calls w' = calls with_set ++ [mk_call (fn_user count_args) 3 ["1"; "2"; "3"]] /\
    stdout w' = stdout with_set ++
      [OutResult 7 (count_args 3 ["1"; "2"; "3"]); OutChar LF].
Proof.
  destruct (dispatch_checks_arity "set 1 2 3" 7 with_set "set" "1 2 3" set_cmd)
    as (w' & Hd & Hc & Hin & _); [reflexivity | reflexivity | simpl; lia |].
  exists w'. split; [exact Hd|]. split; [apply Hc; simpl; lia|].
  destruct Hin as (_ & Hu & _); [simpl; lia|].
  apply (Hu count_args). reflexivity.
Defined.

Lemma dispatch_null_token line count w :
  strtok line = None -> dispatch line count w = Undefined NullDeref.
Proof.
  intros H. unfold dispatch. rewrite H. simpl.
  destruct (head (cmd_list w)); reflexivity.
Qed.

Lemma dispatch_unknown line count w tok save :
  strtok line = Some (tok, save) ->
  find_command (Some tok) (head (cmd_list w)) = Ok None ->
  dispatch line count w =
  Ok (count + 1, printf [OutChar LF] (printf [OutUnknown count tok] w)).
Proof.
  intros Ht Hf. unfold dispatch. rewrite Ht. simpl option_map. rewrite Hf.
  reflexivity.
Qed.

(** C9, as stated, fails: a command registered with bounds 7..8 has
    [max_arg >= 6], and a line that carries seven argument tokens for it is
    not reported as too many, but the handler does not receive the first six
    tokens either: [argc] stops at 6, below [min_arg], the too-few report is
    printed and the handler is not invoked. *)
Lemma wide_command_is_never_invoked :
  scp_add_command (Some "wide") (Some "w") (Some "Needs seven or eight pins.")
                  7 8 (Some count_args) initialised = Ok with_wide /\
  find_command (Some "wide") (head (cmd_list with_wide)) = Ok (Some wide_cmd) /\
  6 <= max_arg wide_cmd /\
  tokens "1 2 3 4 5 6 7" = ["1"; "2"; "3"; "4"; "5"; "6"; "7"] /\
  dispatch "wide 1 2 3 4 5 6 7" 1 with_wide =
    Ok (2, printf [OutChar LF] (printf [OutTooFew 1 "wide" 7] with_wide)) /\
  calls (printf [OutChar LF] (printf [OutTooFew 1 "wide" 7] with_wide)) = [].
Proof. repeat split; vm_compute; try reflexivity; discriminate. Qed.

(** C9, amended: the argument loop collects at most [MAX_ARGC] = 6 tokens,
    the first six of the line's argument tokens, so a handler is never
    invoked with [argc > 6]; for a command with [max_arg >= 6], a line with
    more than six argument tokens gets no too-many report; when moreover
    [min_arg <= 6], the handler is invoked with [argc = 6] on the first six
    tokens (its value on them is the one printed) and the other tokens are
    dropped; when [min_arg > 6], the line gets the too-few report and the
    handler is not invoked. *)
Theorem dispatch_caps_arguments (line : string) (count : Z) (w : world) :
  (forall count' w',
     dispatch line count w = Ok (count', w') ->
     calls w' = calls w \/
     exists c, calls w' = calls w ++ [c] /\
               0 <= call_argc c <= 6 /\
               call_argc c = Z.of_nat (List.length (call_argv c))) /\
  (forall tok save command,
     strtok line = Some (tok, save) ->
     find_command (Some tok) (head (cmd_list w)) = Ok (Some command) ->
     let argv := collect_args MAX_ARGC save in
     (List.length argv <= 6)%nat /\
     argv = firstn 6 (tokens save) /\
     (6 <= max_arg command ->
      (6 < List.length (tokens save))%nat ->
      exists w' out,
        dispatch line count w = Ok (count + 1, w') /\
        stdout w' = stdout w ++ out /\
        existsb is_too_many out = false /\
        (min_arg command <= 6 ->
         calls w' = calls w ++
           [mk_call (func command) 6 (firstn 6 (tokens save))] /\
         (forall g, func command = fn_user g ->
            out = [OutResult count (g 6 (firstn 6 (tokens save)));
                   OutChar LF])) /\
        (6 < min_arg command ->
         calls w' = calls w /\
         out = [OutTooFew count (cmd_str command) (min_arg command);
                OutChar LF]))).
Proof.
  split.
  - intros count' w' H.
    destruct (strtok line) as [[tok save]|] eqn:Ht;
      [|rewrite dispatch_null_token in H by assumption; discriminate].
    destruct (find (name_matches tok) (head (cmd_list w))) as [command|] eqn:Ef.
    + rewrite (dispatch_matched _ _ _ tok save command) in H;
        [|assumption | now rewrite find_command_find, Ef].
      cbv zeta in H.
      pose proof (collect_args_length MAX_ARGC save) as Hlen.
      destruct (_ <? min_arg command);
        [inversion H; subst; left; reflexivity|].
      destruct (_ >? max_arg command);
        [inversion H; subst; left; reflexivity|].
      pose proof (invoke_spec (func command)
                    (Z.of_nat (List.length (collect_args MAX_ARGC save)))
                    (collect_args MAX_ARGC save) w) as Hi.
      destruct (invoke _ _ _ w) as [r w1]. destruct Hi as (Hc & _).
      inversion H; subst. right. eexists. split; [exact Hc|].
      unfold MAX_ARGC in *. cbn [call_argc call_argv].
      split; [lia | reflexivity].
    + rewrite (dispatch_unknown _ _ _ tok save) in H;
        [|assumption | now rewrite find_command_find, Ef].
      inversion H; subst. left. reflexivity.
  - intros tok save command Ht Hf argv.
    pose proof (collect_args_length MAX_ARGC save) as Hlen.
    pose proof (collect_args_firstn MAX_ARGC save) as Hfirst.
    fold argv in Hlen, Hfirst. unfold MAX_ARGC in Hlen, Hfirst.
    split; [exact Hlen|]. split; [exact Hfirst|].
    intros Hmax Hmany.
    assert (Hargc : Z.of_nat (List.length argv) = 6).
    { rewrite Hfirst, length_firstn. lia. }
    rewrite (dispatch_matched _ _ _ _ _ _ Ht Hf). cbv zeta. fold argv.
    rewrite Hargc. rewrite <- Hfirst.
    destruct (Z.ltb_spec 6 (min_arg command)) as [Hlo|Hlo].
    + eexists. eexists. split; [reflexivity|]. simpl.
      rewrite <- app_assoc. split; [reflexivity|]. split; [reflexivity|].
      split; [lia | auto].
    + destruct (Z.gtb_spec 6 (max_arg command)) as [Hhi|Hhi]; [lia|].
      destruct (func command) as [| |g] eqn:Efn;
        cbn [invoke help_cmd_func end_cmd_func].
      * exists (printf [OutChar LF]
                  (printf [OutResult count 1]
                     (snd (help_cmd_func 6 argv
                             (log_call (mk_call fn_help 6 argv) w))))),
               (OutHelpHeader :: map help_row (head (cmd_list w)) ++
                [OutChar LF; OutResult count 1; OutChar LF]).
        split; [reflexivity|]. simpl.
        split; [rewrite <- !app_assoc; simpl; rewrite <- ?app_assoc; reflexivity|].
        split; [rewrite existsb_app, help_rows_not_too_many; reflexivity|].
        split; [intros _; split; [reflexivity | intros g H; discriminate H] | lia].
      * exists (printf [OutChar LF]
                  (printf [OutResult count 1]
                     (set_end_parsing 1 (log_call (mk_call fn_end 6 argv) w)))),
               [OutResult count 1; OutChar LF].
        split; [reflexivity|]. simpl.
        split; [rewrite <- !app_assoc; reflexivity|].
        split; [reflexivity|].
        split; [intros _; split; [reflexivity | intros g H; discriminate H] | lia].
      * exists (printf [OutChar LF]
                  (printf [OutResult count (g 6 argv)]
                     (log_call (mk_call (fn_user g) 6 argv) w))),
               [OutResult count (g 6 argv); OutChar LF].
        split; [reflexivity|]. simpl.
        split; [rewrite <- !app_assoc; reflexivity|].
        split; [reflexivity|].
        split; [intros _; split; [reflexivity | intros g' [= <-]; reflexivity] | lia].
Qed.

Lemma dispatch_caps_arguments_witness :
  exists w' out,
    dispatch "set 1 2 3 4 5 6 7 8" 1 with_set = Ok (1 + 1, w') /\
    stdout w' = stdout with_set ++ out /\
    existsb is_too_many out = false /\
    calls w' = calls with_set ++
      [mk_call (fn_user count_args) 6 ["1"; "2"; "3"; "4"; "5"; "6"]] /\
    out = [OutResult 1 (count_args 6 ["1"; "2"; "3"; "4"; "5"; "6"]);
           OutChar LF].
Proof.
  destruct (proj2 (dispatch_caps_arguments "set 1 2 3 4 5 6 7 8" 1 with_set)
                  "set" "1 2 3 4 5 6 7 8" set_cmd)
    as (_ & _ & H); [reflexivity | reflexivity |].
  destruct H as (w' & out & Hd & Ho & Hn & Hc & _);
    [simpl; lia | vm_compute; lia |].
  destruct Hc as (Hc & Hu); [simpl; lia|].
  exists w', out. repeat split; try assumption.
  apply (Hu count_args). reflexivity.
Defined.

(** C10: a line of one space (followed by return) has length 1, so it gets
    past the empty-line test; [strtok] finds no token in it and returns
    NULL, and the body calls [find_command (NULL)], whose [strcmp]
    dereferences it.  The same for any line made of delimiters only. *)
Theorem delimiter_line_passes_null_to_lookup :
  input_result zeros MAX_INPUT_BUFFER
               (set_stdin (keys_of " " ++ [LF]) initialised)
    = Some (1, [0; 1; 1]) /\
  strtok " " = None /\
  find_command None (head (cmd_list initialised)) = Undefined NullDeref /\
  scp_parse_body zeros 1 (set_stdin (keys_of " " ++ [LF]) initialised)
    = Undefined NullDeref /\
  scp_parse_body zeros 1 (set_stdin (keys_of ", ." ++ [LF]) initialised)
    = Undefined NullDeref.
Proof. repeat split; vm_compute; reflexivity. Qed.

(** * The loop *)

(** The reader echoes characters and prints nothing else. *)
Lemma input_loop_echo len fuel : forall r keys r' keys',
  input_loop fuel len r keys = Some (r', keys') ->
  forallb is_out_char (echoed r) = true ->
  forallb is_out_char (echoed r') = true.
Proof.
  induction fuel as [|fuel IH]; intros r keys r' keys' H He; [discriminate|].
  simpl in H. destruct (GETCH keys) as [ch ks].
  destruct (input_iter_cases len r ch)
    as [[E _] | [[E _] | [[E _] | [E _]]]]; rewrite E in H.
  - now inversion H; subst.
  - eapply IH; [exact H|]. simpl. now rewrite forallb_app, He.
  - eapply IH; [exact H|]. exact He.
  - eapply IH; [exact H|]. simpl. now rewrite forallb_app, He.
Qed.

Lemma input_echo in_buffer len w n m offsets w' :
  input in_buffer len w = Some (n, m, offsets, w') ->
  exists echo, stdout w' = stdout w ++ echo /\ forallb is_out_char echo = true.
Proof.
  unfold input.
  destruct (input_loop _ len _ _) as [[r ks]|] eqn:E; [|discriminate].
  intros H. inversion H; subst; clear H. exists (echoed r).
  split; [reflexivity|]. eapply input_loop_echo; [exact E | reflexivity].
Qed.

(** C6: when [input] returns 0, the pass through the loop body ends at
    [continue]: nothing is tokenized, looked up or invoked (no handler call
    is logged, only the prompt, the echo and the newline are printed), the
    registry and the stop flag are as before, [count] is not advanced, and
    the loop goes on with the next prompt. *)
Theorem empty_line_is_skipped (strbuff : memory) (count : Z) (w : world)
    (buf : memory) (offsets : list Z) (w1 : world) :
  input strbuff MAX_INPUT_BUFFER (printf [OutPrompt count] w)
    = Some (0, buf, offsets, w1) ->
  let w' := printf [OutChar LF] w1 in
  scp_parse_body strbuff count w = Ok (buf, count, w') /\
  cmd_list w' = cmd_list w /\
  end_parsing w' = end_parsing w /\
  calls w' = calls w /\
  (exists echo,
     stdout w' = stdout w ++ [OutPrompt count] ++ echo ++ [OutChar LF] /\
     forallb is_out_char echo = true) /\
  (end_parsing w = 0 ->
   forall fuel,
     scp_parse_loop (S fuel) strbuff count w = scp_parse_loop fuel buf count w').
Proof.
  intros Hin w'.
  destruct (input_spec _ _ _ _ _ _ _ Hin) as (_ & _ & _ & Hb & Hl & He & Hc).
  destruct (input_echo _ _ _ _ _ _ _ Hin) as (echo & Ho & Hecho).
  assert (Hbody : scp_parse_body strbuff count w = Ok (buf, count, w')).
  { unfold scp_parse_body. rewrite Hin.
    replace (in_bounds MAX_INPUT_BUFFER offsets) with true
      by (symmetry; apply Hb; reflexivity).
    reflexivity. }
  split; [exact Hbody|]. subst w'. simpl.
  split; [exact Hl|]. split; [exact He|]. split; [exact Hc|]. split.
  - exists echo. rewrite Ho. simpl. rewrite <- !app_assoc. auto.
  - intros H0 fuel. simpl. rewrite H0, Hbody. reflexivity.
Qed.

Lemma empty_line_is_skipped_witness :
  exists buf w1,
    scp_parse_body zeros 5 (set_stdin (LF :: keys_of "help") initialised)
      = Ok (buf, 5, printf [OutChar LF] w1) /\
    stdin w1 = keys_of "help".
Proof.
  eexists. eexists. split.
  - refine (proj1 (empty_line_is_skipped zeros 5
                     (set_stdin (LF :: keys_of "help") initialised) _ _ _ _)).
    vm_compute. reflexivity.
  - reflexivity.
Defined.

(** ** Configurations *)

Lemma scp_init_inv do_not_exit nodes keys w :
  scp_init do_not_exit (boot nodes keys) = Ok w ->
  head (cmd_list w) = builtins do_not_exit /\
  end_parsing w = 0 /\ stdin w = keys /\ calls w = [].
Proof.
  unfold scp_init, new_command, builtins, boot. simpl.
  destruct nodes as [|[|n]]; simpl; try discriminate;
    destruct (do_not_exit =? 0); simpl; try discriminate;
    intros [= <-]; auto.
Qed.

Lemma scp_add_command_inv cmd abbr help mn mx f w w' :
  scp_add_command cmd abbr help mn mx f w = Ok w' ->
  exists c,
    head (cmd_list w') = head (cmd_list w) ++ [c] /\ is_end c = false /\
    end_parsing w' = end_parsing w /\ stdin w' = stdin w /\
    calls w' = calls w.
Proof.
  unfold scp_add_command, new_command, strlen.
  destruct (is_null (head (cmd_list w))); simpl; [discriminate|].
  destruct cmd as [cs|]; [|discriminate].
  destruct help as [hs|]; [|discriminate].
  destruct (mn <=? mx); [|discriminate].
  destruct f as [g|]; [|discriminate].
  destruct (String.length cs <? MAX_CMD_STR)%nat; [|discriminate].
  destruct abbr as [ab|]; simpl; [|discriminate].
  destruct (String.length ab <? MAX_ABBR_STR)%nat; [|discriminate].
  destruct (String.length hs <? MAX_HELP_STR)%nat; [|discriminate].
  destruct (heap_nodes w); simpl; [discriminate|].
  intros [= <-]. eexists. simpl. repeat split.
Qed.

(** After set-up the flag is clear and the registry is what [scp_init] built
    followed by the client's commands, none of which has the 'end' handler. *)
Lemma setup_registry do_not_exit w :
  setup do_not_exit w ->
  end_parsing w = 0 /\ calls w = [] /\
  exists users,
    head (cmd_list w) = builtins do_not_exit ++ users /\
    existsb is_end users = false.
Proof.
  induction 1 as [nodes keys w Hi | w cmd abbr help mn mx f w' _ IH Ha].
  - destruct (scp_init_inv _ _ _ _ Hi) as (Hh & He & _ & Hc).
    repeat split; try assumption. exists []. now rewrite app_nil_r.
  - destruct IH as (He & Hc & users & Hh & Hu).
    destruct (scp_add_command_inv _ _ _ _ _ _ _ _ Ha)
      as (c & Hh' & Hc' & He' & _ & Hcalls).
    repeat split; try congruence.
    exists (users ++ [c]). rewrite Hh', Hh, <- app_assoc. split; [reflexivity|].
    rewrite existsb_app, Hu. simpl. now rewrite Hc'.
Qed.

(** Every registry a client can build has well-formed bounds, as
    [dispatch_checks_arity] assumes of the command it finds. *)
Lemma scp_add_command_bounds cmd abbr help mn mx f w w' :
  scp_add_command cmd abbr help mn mx f w = Ok w' ->
  exists c,
    head (cmd_list w') = head (cmd_list w) ++ [c] /\
    min_arg c = mn /\ max_arg c = mx /\ mn <= mx.
Proof.
  unfold scp_add_command, new_command, strlen.
  destruct (is_null (head (cmd_list w))); simpl; [discriminate|].
  destruct cmd as [cs|]; [|discriminate].
  destruct help as [hs|]; [|discriminate].
  destruct (Z.leb_spec mn mx); [|discriminate].
  destruct f as [g|]; [|discriminate].
  destruct (String.length cs <? MAX_CMD_STR)%nat; [|discriminate].
  destruct abbr as [ab|]; simpl; [|discriminate].
  destruct (String.length ab <? MAX_ABBR_STR)%nat; [|discriminate].
  destruct (String.length hs <? MAX_HELP_STR)%nat; [|discriminate].
  destruct (heap_nodes w); simpl; [discriminate|].
  intros [= <-]. eexists. simpl. repeat split. assumption.
Qed.

Lemma setup_bounds do_not_exit w :
  setup do_not_exit w ->
  Forall (fun c => min_arg c <= max_arg c) (head (cmd_list w)).
Proof.
  induction 1 as [nodes keys w Hi | w cmd abbr help mn mx f w' _ IH Ha].
  - destruct (scp_init_inv _ _ _ _ Hi) as (Hh & _). rewrite Hh.
    unfold builtins. destruct (do_not_exit =? 0);
      repeat constructor; simpl; lia.
  - destruct (scp_add_command_bounds _ _ _ _ _ _ _ _ Ha)
      as (c & Hh & Hmn & Hmx & Hle).
    rewrite Hh. apply Forall_app. split; [exact IH|].
    constructor; [lia | constructor].
Qed.

(** The pass on a line that is not empty and fits in [strbuff] is the
    dispatch of the string read. *)
Lemma scp_parse_body_dispatch strbuff count w n buf offsets w1 :
  input strbuff MAX_INPUT_BUFFER (printf [OutPrompt count] w)
    = Some (n, buf, offsets, w1) ->
  n <> 0 -> n < MAX_INPUT_BUFFER ->
  scp_parse_body strbuff count w =
  ('(count', w') <- dispatch (c_str buf 0 (Z.to_nat MAX_INPUT_BUFFER)) count
                             (printf [OutChar LF] w1) ;;
   Ok (buf, count', w')).
Proof.
  intros Hin Hn Hlt.
  destruct (input_spec _ _ _ _ _ _ _ Hin) as (_ & _ & _ & Hb & _).
  unfold scp_parse_body. rewrite Hin.
  replace (in_bounds MAX_INPUT_BUFFER offsets) with true
    by (symmetry; now apply Hb).
  destruct (Z.eqb_spec n 0); [contradiction | reflexivity].
Qed.

(** ** One pass through the body *)

(** A pass leaves the registry alone; it leaves the flag alone too, unless
    it invokes a registered 'end' handler, which sets it. *)
Lemma dispatch_flag line count w count' w' :
  dispatch line count w = Ok (count', w') ->
  cmd_list w' = cmd_list w /\
  ((end_parsing w' = end_parsing w /\
    (calls w' = calls w \/
     exists c, calls w' = calls w ++ [c] /\ call_func c <> fn_end)) \/
   (end_parsing w' = 1 /\
    (exists command, In command (head (cmd_list w)) /\ is_end command = true) /\
    exists argc argv, calls w' = calls w ++ [mk_call fn_end argc argv])).
Proof.
  intros H.
  destruct (strtok line) as [[tok save]|] eqn:Ht;
    [|rewrite dispatch_null_token in H by assumption; discriminate].
  destruct (find (name_matches tok) (head (cmd_list w))) as [command|] eqn:Ef.
  - assert (Hf : find_command (Some tok) (head (cmd_list w)) = Ok (Some command))
      by now rewrite find_command_find, Ef.
    rewrite (dispatch_matched _ _ _ tok save command) in H by assumption.
    cbv zeta in H.
    destruct (_ <? min_arg command);
      [inversion H; subst; simpl; auto|].
    destruct (_ >? max_arg command);
      [inversion H; subst; simpl; auto|].
    match type of H with
    | context [invoke ?f ?a ?v w] =>
        pose proof (invoke_spec f a v w) as Hi;
        destruct (invoke f a v w) as [r w1]
    end.
    destruct Hi as (Hc & Hl & _ & _ & He).
    inversion H; subst. simpl. split; [exact Hl|].
    destruct (func command) eqn:Efn.
    + left. split; [exact He|]. right. eexists. split; [exact Hc|].
      simpl. discriminate.
    + right. split; [exact He|]. split.
      * exists command. split; [now apply find_command_In in Hf|].
        unfold is_end. now rewrite Efn.
      * eauto.
    + left. split; [exact He|]. right. eexists. split; [exact Hc|].
      simpl. discriminate.
  - rewrite (dispatch_unknown _ _ _ tok save) in H;
      [|assumption | now rewrite find_command_find, Ef].
    inversion H; subst. simpl. auto.
Qed.

Lemma scp_parse_body_flag strbuff count w strbuff' count' w' :
  scp_parse_body strbuff count w = Ok (strbuff', count', w') ->
  cmd_list w' = cmd_list w /\
  ((end_parsing w' = end_parsing w /\
    (calls w' = calls w \/
     exists c, calls w' = calls w ++ [c] /\ call_func c <> fn_end)) \/
   (end_parsing w' = 1 /\
    (exists command, In command (head (cmd_list w)) /\ is_end command = true) /\
    exists argc argv, calls w' = calls w ++ [mk_call fn_end argc argv])).
Proof.
  unfold scp_parse_body.
  destruct (input strbuff MAX_INPUT_BUFFER (printf [OutPrompt count] w))
    as [[[[n m] offsets] w1]|] eqn:Ei; [|discriminate].
  destruct (input_spec _ _ _ _ _ _ _ Ei) as (_ & _ & _ & _ & Hl & He & Hc).
  simpl in Hl, He, Hc.
  destruct (in_bounds MAX_INPUT_BUFFER offsets); [|discriminate].
  destruct (n =? 0).
  - intros [= <- <- <-]. simpl. auto.
  - destruct (dispatch _ count (printf [OutChar LF] w1)) as [[c w2]| | |] eqn:Ed;
      simpl; try discriminate.
    intros [= <- <- <-]. apply dispatch_flag in Ed. simpl in Ed.
    rewrite Hl, He, Hc in Ed. exact Ed.
Qed.

(** ** The loop *)

Lemma existsb_is_end_false l command :
  existsb is_end l = false -> In command l -> is_end command = true -> False.
Proof.
  intros Hl Hin Hc.
  assert (existsb is_end l = true) by (apply existsb_exists; eauto).
  congruence.
Qed.

(** The loop returns only once the 'end' handler has set the flag. *)
Lemma scp_parse_loop_returns fuel : forall strbuff count w w',
  end_parsing w = 0 ->
  scp_parse_loop fuel strbuff count w = Ok w' ->
  end_parsing w' = 1 /\
  exists l argc argv, calls w' = l ++ [mk_call fn_end argc argv].
Proof.
  induction fuel as [|fuel IH]; intros strbuff count w w' H0 H;
    [discriminate|].
  simpl in H. rewrite H0 in H. simpl in H.
  destruct (scp_parse_body strbuff count w) as [[[b c] w1]| | |] eqn:Eb;
    simpl in H; try discriminate.
  destruct (scp_parse_body_flag _ _ _ _ _ _ Eb)
    as (_ & [(He & _) | (He & _ & argc & argv & Hc)]).
  - eapply IH; [|exact H]. congruence.
  - destruct fuel as [|fuel']; [discriminate|]. simpl in H.
    rewrite He in H. simpl in H. inversion H; subst. eauto.
Qed.

(** With no 'end' handler in the registry, no pass sets the flag... *)
Lemma passes_without_end n : forall strbuff count w strbuff' count' w',
  end_parsing w = 0 ->
  existsb is_end (head (cmd_list w)) = false ->
  passes n strbuff count w = Ok (strbuff', count', w') ->
  end_parsing w' = 0 /\ cmd_list w' = cmd_list w.
Proof.
  induction n as [|n IH]; intros strbuff count w strbuff' count' w' H0 Hno H.
  - inversion H; subst. auto.
  - simpl in H.
    destruct (scp_parse_body strbuff count w) as [[[b c] w1]| | |] eqn:Eb;
      simpl in H; try discriminate.
    destruct (scp_parse_body_flag _ _ _ _ _ _ Eb)
      as (Hl & [(He & _) | (_ & (command & Hin & Hend) & _)]).
    + destruct (IH _ _ _ _ _ _ (eq_trans He H0)
                   (eq_trans (f_equal (fun l => existsb is_end (head l)) Hl) Hno)
                   H) as (He' & Hl').
      split; congruence.
    + exfalso. eapply existsb_is_end_false; eassumption.
Qed.

(** ... and the loop does not return. *)
Lemma scp_parse_loop_without_end fuel : forall strbuff count w w',
  end_parsing w = 0 ->
  existsb is_end (head (cmd_list w)) = false ->
  scp_parse_loop fuel strbuff count w <> Ok w'.
Proof.
  induction fuel as [|fuel IH]; intros strbuff count w w' H0 Hno H;
    [discriminate|].
  simpl in H. rewrite H0 in H. simpl in H.
  destruct (scp_parse_body strbuff count w) as [[[b c] w1]| | |] eqn:Eb;
    simpl in H; try discriminate.
  destruct (passes_without_end 1 strbuff count w b c w1 H0 Hno) as (He & Hl).
  - simpl. rewrite Eb. reflexivity.
  - eapply IH; [exact He | | exact H]. now rewrite Hl.
Qed.

(** Reading the line "end". *)
Lemma input_end strbuff w rest :
  stdin w = keys_of "end" ++ LF :: rest ->
  input strbuff MAX_INPUT_BUFFER w =
  Some (3, end_typed strbuff, [0; 1; 2; 3; 3],
        printf [OutChar "e"; OutChar "n"; OutChar "d"] (set_stdin rest w)).
Proof.
  intros H. unfold input. rewrite H.
  erewrite (input_loop_more_fuel MAX_INPUT_BUFFER 4).
  2: reflexivity.
  2: unfold input_fuel; simpl; lia.
  reflexivity.
Qed.

(** The pass that reads "end" while the built-in command is registered. *)
Lemma scp_parse_body_end strbuff count w users rest :
  head (cmd_list w) = help_cmd :: end_cmd :: users ->
  stdin w = keys_of "end" ++ LF :: rest ->
  exists w',
    scp_parse_body strbuff count w = Ok (end_typed strbuff, count + 1, w') /\
    end_parsing w' = 1 /\ stdin w' = rest /\
    calls w' = calls w ++ [mk_call fn_end 0 []].
Proof.
  intros Hh Hs. unfold scp_parse_body.
  rewrite (input_end strbuff (printf [OutPrompt count] w) rest) by exact Hs.
  change (in_bounds MAX_INPUT_BUFFER [0; 1; 2; 3; 3]) with true.
  change (3 =? 0) with false. cbv iota.
  change (c_str (end_typed strbuff) 0 (Z.to_nat MAX_INPUT_BUFFER)) with "end".
  erewrite (dispatch_matched "end" count _ "end" "" end_cmd);
    [| reflexivity | simpl; rewrite Hh; reflexivity].
  simpl. eexists. split; [reflexivity|]. simpl. auto.
Qed.

(** The model run on a whole session, as in the header's sample output. *)
Example session_transcript :
  reports (scp_parse 7 zeros (set_stdin session with_set)) =
  Some [OutHelpHeader;
        OutHelpRow "help" (Some "h") "Lists all commands available.";
        OutHelpRow "end" (Some "end") "Exit the parser.";
        OutHelpRow "set" (Some "s") "Set up to six pins.";
        OutPrompt 1; OutResult 1 3;
        OutPrompt 2; OutUnknown 2 "foo";
        OutPrompt 3; OutTooFew 3 "set" 1;
        OutPrompt 4; OutResult 4 6;
        OutPrompt 5;
        OutPrompt 5; OutResult 5 1].
Proof. vm_compute. reflexivity. Qed.

Lemma scp_parse_loop_step fuel strbuff count w strbuff' count' w' :
  end_parsing w = 0 ->
  scp_parse_body strbuff count w = Ok (strbuff', count', w') ->
  scp_parse_loop (S fuel) strbuff count w =
  scp_parse_loop fuel strbuff' count' w'.
Proof. intros H0 Hb. simpl. rewrite H0, Hb. reflexivity. Qed.

Lemma scp_parse_loop_stop fuel strbuff count w :
  end_parsing w <> 0 -> scp_parse_loop (S fuel) strbuff count w = Ok w.
Proof.
  intros H. simpl. destruct (Z.eqb_spec (end_parsing w) 0); [contradiction|].
  reflexivity.
Qed.

(** Passes never touch the registry and never clear the flag. *)
Lemma passes_keeps n : forall strbuff count w strbuff' count' w',
  passes n strbuff count w = Ok (strbuff', count', w') ->
  cmd_list w' = cmd_list w /\ (end_parsing w <> 0 -> end_parsing w' <> 0).
Proof.
  induction n as [|n IH]; intros strbuff count w strbuff' count' w' H.
  - inversion H; subst. auto.
  - simpl in H.
    destruct (scp_parse_body strbuff count w) as [[[b c] w1]| | |] eqn:Eb;
      simpl in H; try discriminate.
    destruct (IH _ _ _ _ _ _ H) as (Hl & He).
    destruct (scp_parse_body_flag _ _ _ _ _ _ Eb) as (Hl1 & Hf).
    split; [congruence|]. intros Hne. apply He.
    destruct Hf as [(E & _) | (E & _)]; rewrite E; [exact Hne | discriminate].
Qed.

(** Passes that leave the flag clear are the iterations of the loop. *)
Lemma passes_loop n : forall strbuff count w strbuff' count' w' fuel,
  passes n strbuff count w = Ok (strbuff', count', w') ->
  end_parsing w' = 0 ->
  scp_parse_loop (n + fuel) strbuff count w =
  scp_parse_loop fuel strbuff' count' w'.
Proof.
  induction n as [|n IH]; intros strbuff count w strbuff' count' w' fuel H H0.
  - inversion H; subst. reflexivity.
  - assert (Hw : end_parsing w = 0).
    { destruct (Z.eq_dec (end_parsing w) 0) as [E|E]; [exact E|].
      destruct (passes_keeps _ _ _ _ _ _ _ H) as (_ & Hk).
      now apply Hk in E. }
    simpl in H.
    destruct (scp_parse_body strbuff count w) as [[[b c] w1]| | |] eqn:Eb;
      simpl in H; try discriminate.
    change (S n + fuel)%nat with (S (n + fuel)).
    rewrite (scp_parse_loop_step _ _ _ _ _ _ _ Hw Eb).
    now apply IH.
Qed.

(** C4: [scp_parse] returns only when the built-in 'end' handler has set
    the stop flag.  After [scp_init (0)] (and any registrations) the 'end'
    command is registered, and entering it, at the first prompt or after
    any number of passes, sets the flag and makes [scp_parse] return.
    After [scp_init] with a nonzero argument no
    descriptor carries the 'end' handler (and right after [scp_init] no
    command is called "end"), every pass through the loop leaves the flag
    clear, and [scp_parse] does not return, whatever the input and however
    many passes are allowed. *)
Theorem end_command_stops_the_loop :
  (forall fuel strbuff w w',
     end_parsing w = 0 ->
     scp_parse fuel strbuff w = Ok w' ->
     end_parsing w' = 1 /\
     exists l argc argv, calls w' = l ++ [mk_call fn_end argc argv]) /\
  (forall w n strbuff strbuff1 count1 w1 rest fuel,
     setup 0 w ->
     passes n strbuff 1 (snd (help_cmd_func 0 [] w))
       = Ok (strbuff1, count1, w1) ->
     end_parsing w1 = 0 ->
     stdin w1 = keys_of "end" ++ LF :: rest ->
     find_command (Some "end") (head (cmd_list w1)) = Ok (Some end_cmd) /\
     exists w',
       scp_parse (n + S (S fuel)) strbuff w = Ok w' /\
       end_parsing w' = 1 /\ stdin w' = rest /\
       calls w' = calls w1 ++ [mk_call fn_end 0 []]) /\
  (forall do_not_exit w,
     do_not_exit <> 0 ->
     setup do_not_exit w ->
     existsb is_end (head (cmd_list w)) = false /\
     (forall nodes keys w0,
        scp_init do_not_exit (boot nodes keys) = Ok w0 ->
        find_command (Some "end") (head (cmd_list w0)) = Ok None) /\
     (forall n strbuff strbuff' count' w',
        passes n strbuff 1 (snd (help_cmd_func 0 [] w))
          = Ok (strbuff', count', w') ->
        end_parsing w' = 0) /\
     (forall fuel strbuff w', scp_parse fuel strbuff w <> Ok w')).
Proof.
  split; [|split].
  - intros fuel strbuff w w' H0 H. unfold scp_parse in H. simpl in H.
    eapply scp_parse_loop_returns; [|exact H]. exact H0.
  - intros w n strbuff strbuff1 count1 w1 rest fuel Hs Hp H1 Hin.
    destruct (setup_registry _ _ Hs) as (_ & _ & users & Hh & _).
    change (builtins 0 ++ users) with (help_cmd :: end_cmd :: users) in Hh.
    destruct (passes_keeps _ _ _ _ _ _ _ Hp) as (Hl & _). simpl in Hl.
    rewrite <- Hl in Hh.
    split; [rewrite Hh; reflexivity|].
    destruct (scp_parse_body_end strbuff1 count1 w1 users rest Hh Hin)
      as (w' & Hb & He & Hs' & Hc').
    exists w'. repeat split; try assumption.
    unfold scp_parse.
    change (help_cmd_func 0 [] w)
      with (1, snd (help_cmd_func 0 [] w)). cbv iota.
    rewrite (passes_loop _ _ _ _ _ _ _ _ Hp H1).
    rewrite (scp_parse_loop_step _ _ _ _ _ _ _ H1 Hb).
    apply scp_parse_loop_stop. rewrite He. discriminate.
  - intros do_not_exit w Hne Hs.
    destruct (setup_registry _ _ Hs) as (H0 & Hc & users & Hh & Hu).
    assert (Hb : builtins do_not_exit = [help_cmd]).
    { unfold builtins. destruct (Z.eqb_spec do_not_exit 0); [contradiction|].
      reflexivity. }
    assert (Hno : existsb is_end (head (cmd_list w)) = false).
    { rewrite Hh, Hb. simpl. exact Hu. }
    split; [exact Hno|]. split; [|split].
    + intros nodes keys w0 Hi.
      destruct (scp_init_inv _ _ _ _ Hi) as (Hh0 & _).
      rewrite Hh0, Hb. reflexivity.
    + intros n strbuff strbuff' count' w' Hp.
      eapply passes_without_end; [| |exact Hp]; simpl; assumption.
    + intros fuel strbuff w'. unfold scp_parse. simpl.
      apply scp_parse_loop_without_end; simpl; assumption.
Qed.

Lemma end_command_stops_the_loop_witness :
  exists w',
    scp_parse 2 zeros end_session = Ok w' /\
    end_parsing w' = 1 /\ stdin w' = [] /\
    calls w' = calls (snd (help_cmd_func 0 [] end_session)) ++
               [mk_call fn_end 0 []].
Proof.
  apply (proj1 (proj2 end_command_stops_the_loop)
               end_session 0%nat zeros zeros 1
               (snd (help_cmd_func 0 [] end_session)) [] 0%nat).
  - apply (setup_init 0 8 (keys_of "end" ++ [LF])). reflexivity.
  - reflexivity.
  - reflexivity.
  - reflexivity.
Defined.

(** * Further properties of the registry *)

Lemma scp_add_command_shape cmd abbr help mn mx f w w' :
  scp_add_command cmd abbr help mn mx f w = Ok w' ->
  exists cs ab hs g,
    cmd = Some cs /\ abbr = Some ab /\ help = Some hs /\ f = Some g /\
    head (cmd_list w) <> [] /\
    cmd_list w' =
      mk_list (head (cmd_list w) ++ [mk_command cs (Some ab) hs mn mx (fn_user g)])
              (size (cmd_list w) + 1) /\
    S (heap_nodes w') = heap_nodes w.
Proof.
  unfold scp_add_command, new_command, strlen.
  destruct (head (cmd_list w)) as [|c0 l0] eqn:Eh; simpl; [discriminate|].
  destruct cmd as [cs|]; [|discriminate].
  destruct help as [hs|]; [|discriminate].
  destruct (mn <=? mx); [|discriminate].
  destruct f as [g|]; [|discriminate].
  destruct (String.length cs <? MAX_CMD_STR)%nat; [|discriminate].
  destruct abbr as [ab|]; simpl; [|discriminate].
  destruct (String.length ab <? MAX_ABBR_STR)%nat; [|discriminate].
  destruct (String.length hs <? MAX_HELP_STR)%nat; [|discriminate].
  destruct (heap_nodes w) eqn:En; simpl; [discriminate|].
  intros [= <-]. exists cs, ab, hs, g. simpl. rewrite Eh.
  repeat split; discriminate.
Qed.

(** X1: [cmd_list.size] counts the nodes of the list: after [scp_init] and
    any number of registrations it is the length of the list, the built-in
    commands included. *)
Theorem registry_size_counts_nodes (do_not_exit : Z) (w : world) :
  setup do_not_exit w ->
  size (cmd_list w) = Z.of_nat (List.length (head (cmd_list w))) /\
  Z.of_nat (List.length (builtins do_not_exit)) <= size (cmd_list w).
Proof.
  induction 1 as [nodes keys w Hi | w cmd abbr help mn mx f w' _ IH Ha].
  - revert Hi. unfold scp_init, new_command, builtins, boot. simpl.
    destruct nodes as [|[|n]]; simpl; try discriminate;
      destruct (do_not_exit =? 0); simpl; try discriminate;
      intros [= <-]; simpl; lia.
  - destruct (scp_add_command_shape _ _ _ _ _ _ _ _ Ha)
      as (cs & ab & hs & g & _ & _ & _ & _ & _ & Hl & _).
    rewrite Hl. simpl. rewrite length_app. simpl. lia.
Qed.

Lemma registry_size_counts_nodes_witness :
  size (cmd_list with_set) = Z.of_nat (List.length (head (cmd_list with_set))).
Proof.
  apply (registry_size_counts_nodes 0 with_set).
  apply (setup_add 0 initialised (Some "set") (Some "s")
           (Some "Set up to six pins.") 1 6 (Some count_args)).
  - apply (setup_init 0 8 []). reflexivity.
  - reflexivity.
Defined.

Lemma setup_head_not_null do_not_exit w :
  setup do_not_exit w -> head (cmd_list w) <> [].
Proof.
  intros Hs. destruct (setup_registry _ _ Hs) as (_ & _ & users & Hh & _).
  rewrite Hh. unfold builtins. destruct (do_not_exit =? 0); discriminate.
Qed.

(** X2: the parser is initialised once: on a parser that is set up,
    [scp_init] trips its first assertion, so the 'end' command cannot be
    switched on or off afterwards. *)
Theorem scp_init_twice_aborts (do_not_exit again : Z) (w : world) :
  setup do_not_exit w ->
  scp_init again w = AssertFail A_not_reinit.
Proof.
  intros Hs. apply setup_head_not_null in Hs. unfold scp_init.
  now rewrite (is_null_false _ Hs).
Qed.

Lemma scp_init_twice_aborts_witness :
  scp_init 1 initialised = AssertFail A_not_reinit.
Proof.
  apply (scp_init_twice_aborts 0 1 initialised).
  apply (setup_init 0 8 []). reflexivity.
Defined.

Lemma find_app {A} (p : A -> bool) l1 l2 :
  find p (l1 ++ l2) =
  match find p l1 with Some x => Some x | None => find p l2 end.
Proof.
  induction l1 as [|a l1 IH]; simpl; [reflexivity|].
  destruct (p a); [reflexivity | exact IH].
Qed.

(** X3: registration and lookup.  After a successful [scp_add_command], a
    token that was found before is found with the same descriptor (an
    earlier command shadows the new one, there is no check for duplicate
    names); a token that was not found is found exactly when it is the new
    command's name or abbreviation, and then the new descriptor, with the
    bounds and the handler given, is returned. *)
Theorem find_command_after_add (cs ab hs : string) (mn mx : Z)
    (g : Z -> list string -> Z) (w w' : world) (tok : string) :
  scp_add_command (Some cs) (Some ab) (Some hs) mn mx (Some g) w = Ok w' ->
  find_command (Some tok) (head (cmd_list w')) =
  match find_command (Some tok) (head (cmd_list w)) with
  | Ok None =>
    if (tok =? cs)%string || (tok =? ab)%string
    then Ok (Some (mk_command cs (Some ab) hs mn mx (fn_user g)))
    else Ok None
  | found => found
  end.
Proof.
  intros Ha.
  destruct (scp_add_command_shape _ _ _ _ _ _ _ _ Ha)
    as (cs' & ab' & hs' & g' & [= <-] & [= <-] & [= <-] & [= <-] & _ & Hl & _).
  rewrite Hl. cbn [head]. rewrite !find_command_find, find_app.
  destruct (find (name_matches tok) (head (cmd_list w))); [reflexivity|].
  simpl. unfold name_matches at 1. simpl.
  destruct ((tok =? cs)%string || (tok =? ab)%string); reflexivity.
Qed.

Lemma find_command_after_add_witness :
  find_command (Some "s") (head (cmd_list with_set)) = Ok (Some set_cmd).
Proof.
  apply (find_command_after_add "set" "s" "Set up to six pins." 1 6
           count_args initialised with_set "s").
  reflexivity.
Defined.

Lemma setup_clients do_not_exit w :
  setup do_not_exit w ->
  exists users,
    head (cmd_list w) = builtins do_not_exit ++ users /\
    Forall (fun c => exists g, func c = fn_user g) users.
Proof.
  induction 1 as [nodes keys w Hi | w cmd abbr help mn mx f w' _ IH Ha].
  - destruct (scp_init_inv _ _ _ _ Hi) as (Hh & _).
    exists []. rewrite app_nil_r. auto.
  - destruct IH as (users & Hh & Hu).
    destruct (scp_add_command_shape _ _ _ _ _ _ _ _ Ha)
      as (cs & ab & hs & g & _ & _ & _ & _ & _ & Hl & _).
    exists (users ++ [mk_command cs (Some ab) hs mn mx (fn_user g)]).
    rewrite Hl. cbn [head]. rewrite Hh, <- app_assoc. split; [reflexivity|].
    apply Forall_app. split; [exact Hu|]. constructor; [|constructor].
    simpl. eauto.
Qed.

(** X4: the built-in commands come first in the list and cannot be
    overridden: whatever the client registers (a command called "help", "h"
    or "end" is accepted), "help" and "h" reach the built-in help command
    and, when 'end' is enabled, "end" reaches the built-in end command; when
    it is disabled, "end" can only reach a client's handler. *)
Theorem builtins_shadow_client_commands (do_not_exit : Z) (w : world) :
  setup do_not_exit w ->
  find_command (Some "help") (head (cmd_list w)) = Ok (Some help_cmd) /\
  find_command (Some "h") (head (cmd_list w)) = Ok (Some help_cmd) /\
  (do_not_exit = 0 ->
   find_command (Some "end") (head (cmd_list w)) = Ok (Some end_cmd)) /\
  (do_not_exit <> 0 ->
   forall c, find_command (Some "end") (head (cmd_list w)) = Ok (Some c) ->
             exists g, func c = fn_user g).
Proof.
  intros Hs. destruct (setup_clients _ _ Hs) as (users & Hh & Hu).
  rewrite Hh. unfold builtins.
  destruct (Z.eqb_spec do_not_exit 0) as [E|E].
  - repeat split; try reflexivity. intros; contradiction.
  - repeat split; try reflexivity; [intros; contradiction|].
    intros _ c Hf. rewrite find_command_find in Hf. injection Hf as Hf.
    apply find_some in Hf. destruct Hf as [Hin _].
    rewrite Forall_forall in Hu. now apply Hu.
Qed.

Lemma builtins_shadow_client_commands_witness :
  find_command (Some "end") (head (cmd_list with_set)) = Ok (Some end_cmd).
Proof.
  apply (builtins_shadow_client_commands 0 with_set); [|reflexivity].
  apply (setup_add 0 initialised (Some "set") (Some "s")
           (Some "Set up to six pins.") 1 6 (Some count_args)).
  - apply (setup_init 0 8 []). reflexivity.
  - reflexivity.
Defined.

(** * Further properties of the line reader *)

Lemma is_ordinary_facts c :
  is_ordinary c = true -> c <> CR /\ c <> LF /\ is_erase c = false.
Proof.
  unfold is_ordinary, is_erase. intros H.
  apply andb_true_iff in H. destruct H as [H Hlf].
  apply andb_true_iff in H. destruct H as [H Hcr].
  apply andb_true_iff in H. destruct H as [Hbs Hdel].
  apply negb_true_iff in Hlf, Hcr, Hbs, Hdel. rewrite Hbs, Hdel.
  repeat split; try reflexivity; intros ->; discriminate.
Qed.

Lemma input_iter_ordinary len r c :
  is_ordinary c = true -> ptr r < len ->
  input_iter len r c = Continue (putch (poke c r)).
Proof.
  intros Hc Hlt. destruct (is_ordinary_facts c Hc) as (Hcr & Hlf & He).
  destruct (input_iter_cases len r c)
    as [[E Hb] | [[E (He' & _)] | [[E (He' & _)] | [E _]]]];
    try congruence.
  destruct Hb as [?|[?|?]]; [contradiction | contradiction | lia].
Qed.

(** Typing ordinary characters into a buffer with room for them. *)
Lemma type_keys_plain len l : forall r,
  forallb is_ordinary l = true ->
  0 <= ptr r ->
  ptr r + Z.of_nat (List.length l) <= len ->
  exists r',
    type_keys len r l = Continue r' /\
    ptr r' = ptr r + Z.of_nat (List.length l) /\
    (forall i, (i < List.length l)%nat ->
               mem r' (ptr r + Z.of_nat i) = nth i l NUL) /\
    (forall j, j < ptr r -> mem r' j = mem r j) /\
    (exists ws, written r' = written r ++ ws /\
                Forall (fun i => ptr r <= i < ptr r + Z.of_nat (List.length l)) ws) /\
    echoed r' = echoed r ++ map OutChar l.
Proof.
  induction l as [|c l IH]; intros r Hl Hp Hroom.
  - exists r. simpl. rewrite Z.add_0_r, !app_nil_r.
    repeat split; try reflexivity; try (intros; lia).
    exists []. rewrite app_nil_r. auto.
  - simpl in Hl. apply andb_true_iff in Hl. destruct Hl as [Hc Hl].
    cbn [List.length] in Hroom. rewrite Nat2Z.inj_succ in Hroom.
    cbn [type_keys]. rewrite (input_iter_ordinary len r c Hc) by lia.
    destruct (IH (putch (poke c r)) Hl) as (r' & Ht & Hptr & Hm & Hk & (ws & Hw & Hws) & He);
      try (simpl; lia).
    simpl in Hptr, Hm, Hk, Hw, Hws, He.
    exists r'. split; [exact Ht|].
    cbn [List.length]. rewrite Nat2Z.inj_succ.
    split; [lia|]. split; [|split; [|split]].
    + intros [|i] Hi.
      * simpl. rewrite Z.add_0_r, Hk by lia. unfold store.
        now rewrite Z.eqb_refl.
      * simpl nth. rewrite <- Hm by (simpl in Hi; lia). f_equal. lia.
    + intros j Hj. rewrite Hk by lia. unfold store.
      destruct (Z.eqb_spec j (ptr r)); [lia | reflexivity].
    + exists (ptr r :: ws). rewrite Hw, <- app_assoc. split; [reflexivity|].
      constructor; [lia|]. eapply Forall_impl; [|exact Hws].
      simpl. intros; lia.
    + rewrite He, <- app_assoc. simpl. unfold store.
      now rewrite Z.eqb_refl.
Qed.

(** The C string behind a run of characters followed by the terminator. *)
Lemma c_str_reads m l : forall from n,
  (forall i, (i < List.length l)%nat -> m (from + Z.of_nat i) = nth i l NUL) ->
  m (from + Z.of_nat (List.length l)) = NUL ->
  forallb (fun c => negb (c =? NUL)%char) l = true ->
  (List.length l < n)%nat ->
  c_str m from n = string_of_list_ascii l.
Proof.
  induction l as [|c l IH]; intros from n Hm Hnul Hl Hn.
  - destruct n as [|n]; [reflexivity|]. simpl in *.
    rewrite Z.add_0_r in Hnul. now rewrite Hnul.
  - destruct n as [|n]; [simpl in Hn; lia|].
    simpl in Hl. apply andb_true_iff in Hl. destruct Hl as [Hc Hl].
    pose proof (Hm 0%nat ltac:(simpl; lia)) as H0. simpl in H0.
    rewrite Z.add_0_r in H0. simpl. rewrite H0.
    apply negb_true_iff in Hc. rewrite Hc. f_equal.
    apply IH; try assumption.
    + intros i Hi. specialize (Hm (S i) ltac:(simpl; lia)).
      simpl nth in Hm. rewrite <- Hm. f_equal. lia.
    + rewrite <- Hnul. f_equal. simpl List.length. lia.
    + simpl in Hn. lia.
Qed.

Lemma input_plain_line (in_buffer : memory) (len : Z) (w : world)
    (l : list ascii) (t : ascii) (rest : list ascii) :
  forallb is_ordinary l = true ->
  t = CR \/ t = LF ->
  Z.of_nat (List.length l) < len ->
  stdin w = l ++ t :: rest ->
  exists m offsets,
    input in_buffer len w =
      Some (Z.of_nat (List.length l), m, offsets,
            printf (map OutChar l) (set_stdin rest w)) /\
    in_bounds len offsets = true /\
    (forall i, (i < List.length l)%nat -> m (Z.of_nat i) = nth i l NUL) /\
    m (Z.of_nat (List.length l)) = NUL /\
    (forallb (fun c => negb (c =? NUL)%char) l = true ->
     c_str m 0 (Z.to_nat len) = string_of_list_ascii l).
Proof.
  intros Hl Ht Hlen Hin.
  destruct (type_keys_plain len l (reader_init in_buffer) Hl)
    as (r' & Hk & Hptr & Hm & _ & (ws & Hw & Hws) & He);
    try (simpl; lia).
  simpl in Hptr, Hm, Hw, Hws, He.
  assert (Hbreak : input_iter len r' t = Break (poke t r')).
  { destruct (input_iter_cases len r' t)
      as [[E _] | [[E (Hx & _)] | [[E (Hx & _)] | [E (Hx & _)]]]];
      try exact E; destruct Ht; subst t; discriminate Hx. }
  unfold input. rewrite Hin.
  replace (input_fuel len (l ++ t :: rest))
    with (List.length l + S (List.length l + 2 * List.length rest
                             + Z.to_nat len + 2))%nat
    by (unfold input_fuel; rewrite length_app; simpl; lia).
  rewrite (input_loop_type_keys len l _ _ _ _ Hk).
  cbn [input_loop GETCH]. rewrite Hbreak. cbn [poke ptr mem written echoed].
  rewrite Hptr, He, Hw. simpl app.
  assert (Hget : forall i, (i < List.length l)%nat ->
            store (store (mem r') (Z.of_nat (List.length l)) t)
                  (Z.of_nat (List.length l)) NUL (Z.of_nat i) = nth i l NUL).
  { intros i Hi. unfold store.
    destruct (Z.eqb_spec (Z.of_nat i) (Z.of_nat (List.length l))); [lia|].
    now apply Hm. }
  assert (Hnul : store (store (mem r') (Z.of_nat (List.length l)) t)
                       (Z.of_nat (List.length l)) NUL
                       (Z.of_nat (List.length l)) = NUL).
  { unfold store. now rewrite Z.eqb_refl. }
  eexists. eexists. split; [reflexivity|]. split; [|split; [|split]].
  - apply in_bounds_Forall. repeat (apply Forall_app; split).
    + eapply Forall_impl; [|exact Hws]. simpl. intros; lia.
    + constructor; [lia | constructor].
    + constructor; [lia | constructor].
  - exact Hget.
  - exact Hnul.
  - intros Hnn. apply c_str_reads; try assumption; lia.
Qed.

(** X5: a line typed without editing comes back as typed.  When the stream
    starts with ordinary characters, fewer than [len] of them, followed by
    carriage return or newline, [input] returns their number, leaves them in
    the buffer with the terminator behind them (the terminating key is not
    stored), echoes each of them, stays inside the buffer and leaves the
    keys after the terminating one unread. *)
Theorem input_reads_plain_line (in_buffer : memory) (len : Z) (w : world)
    (l : list ascii) (t : ascii) (rest : list ascii) :
  forallb is_ordinary l = true ->
  t = CR \/ t = LF ->
  Z.of_nat (List.length l) < len ->
  stdin w = l ++ t :: rest ->
  exists m offsets,
    input in_buffer len w =
      Some (Z.of_nat (List.length l), m, offsets,
            printf (map OutChar l) (set_stdin rest w)) /\
    in_bounds len offsets = true /\
    (forall i, (i < List.length l)%nat -> m (Z.of_nat i) = nth i l NUL) /\
    m (Z.of_nat (List.length l)) = NUL /\
    (forallb (fun c => negb (c =? NUL)%char) l = true ->
     c_str m 0 (Z.to_nat len) = string_of_list_ascii l).
Proof. exact (input_plain_line in_buffer len w l t rest). Qed.

Lemma input_reads_plain_line_witness :
  exists m offsets,
    input zeros MAX_INPUT_BUFFER
          (set_stdin (keys_of "set 1 2" ++ CR :: keys_of "end") initialised) =
      Some (7, m, offsets,
            printf (map OutChar (keys_of "set 1 2"))
                   (set_stdin (keys_of "end")
                      (set_stdin (keys_of "set 1 2" ++ CR :: keys_of "end")
                                 initialised))) /\
    c_str m 0 (Z.to_nat MAX_INPUT_BUFFER) = "set 1 2".
Proof.
  destruct (input_reads_plain_line zeros MAX_INPUT_BUFFER
              (set_stdin (keys_of "set 1 2" ++ CR :: keys_of "end") initialised)
              (keys_of "set 1 2") CR (keys_of "end"))
    as (m & offsets & Hi & _ & _ & _ & Hs);
    [reflexivity | left; reflexivity | reflexivity | reflexivity |].
  exists m, offsets. split; [exact Hi|]. apply Hs. reflexivity.
Defined.

(** X6: [input] returns for every stream, with a value between 0 and
    [len], the terminator at that offset, and every store at an offset
    between 0 and [len]: a buffer of [len + 1] bytes is never overrun, and
    the [len] bytes announced are overrun exactly when the value returned is
    [len].  The registry, the flag and the call log are not touched. *)
Theorem input_needs_len_plus_one (in_buffer : memory) (len : Z) (w : world) :
  0 <= len ->
  exists n m offsets w',
    input in_buffer len w = Some (n, m, offsets, w') /\
    0 <= n <= len /\ m n = NUL /\
    in_bounds (len + 1) offsets = true /\
    (in_bounds len offsets = false <-> n = len) /\
    cmd_list w' = cmd_list w /\ end_parsing w' = end_parsing w /\
    calls w' = calls w.
Proof.
  intros Hlen. destruct (input_total in_buffer len w) as [[[[n m] offsets] w'] Hi].
  destruct (input_spec _ _ _ _ _ _ _ Hi)
    as (Hn & Hm & (ws & Hoff & Hws) & Hb & Hl & He & Hc).
  exists n, m, offsets, w'. split; [exact Hi|].
  repeat split; try assumption; try lia.
  - rewrite Hoff. apply in_bounds_Forall. apply Forall_app. split.
    + eapply Forall_impl; [|exact Hws]. simpl. intros; lia.
    + repeat constructor; lia.
  - intros Hf. destruct (Z.eq_dec n len) as [E|E]; [exact E|].
    assert (in_bounds len offsets = true) by (apply Hb; lia). congruence.
  - intros Heq. destruct (in_bounds len offsets); [|reflexivity].
    destruct Hb as [Hb _]. specialize (Hb eq_refl). lia.
Qed.

Lemma input_needs_len_plus_one_witness :
  exists n m offsets w',
    input zeros 4 (boot 0 (keys_of "abcdef")) = Some (n, m, offsets, w') /\
    0 <= n <= 4 /\ m n = NUL /\ in_bounds (4 + 1) offsets = true.
Proof.
  destruct (input_needs_len_plus_one zeros 4 (boot 0 (keys_of "abcdef")))
    as (n & m & offsets & w' & Hi & Hn & Hm & Hb & _); [lia|].
  exists n, m, offsets, w'. auto.
Defined.

(** Past the end of the stream the loop stores [(char)EOF] up to [len]. *)
Lemma input_loop_eof len k : forall fuel r,
  0 <= ptr r ->
  len - ptr r = Z.of_nat k ->
  (k < fuel)%nat ->
  exists r',
    input_loop fuel len r [] = Some (r', []) /\
    ptr r' = len /\
    (forall i, ptr r <= i < len -> mem r' i = EOF_char) /\
    (forall i, i < ptr r -> mem r' i = mem r i).
Proof.
  induction k as [|k IH]; intros fuel r Hp Hk Hf;
    (destruct fuel as [|fuel]; [lia|]); cbn [input_loop GETCH].
  - destruct (input_iter_cases len r EOF_char)
      as [[E _] | [[E (_ & Hr)] | [[E (_ & _ & Hr)] | [E (_ & Hr)]]]];
      try lia.
    rewrite E. eexists. split; [reflexivity|]. simpl.
    split; [lia|]. split; [intros; lia|].
    intros i Hi. unfold store. destruct (Z.eqb_spec i (ptr r)); [lia|reflexivity].
  - rewrite input_iter_ordinary by (reflexivity || lia).
    destruct (IH fuel (putch (poke EOF_char r))) as (r' & Hl & Hptr & Hm & Hkeep);
      try (simpl; lia).
    simpl in Hm, Hkeep.
    exists r'. split; [exact Hl|]. split; [exact Hptr|]. split.
    + intros i Hi. destruct (Z.eq_dec i (ptr r)) as [->|Hne].
      * rewrite Hkeep by lia. unfold store. now rewrite Z.eqb_refl.
      * apply Hm. lia.
    + intros i Hi. rewrite Hkeep by lia. unfold store.
      destruct (Z.eqb_spec i (ptr r)); [lia | reflexivity].
Qed.

Lemma input_eof (in_buffer : memory) (len : Z) (w : world) :
  0 <= len ->
  stdin w = [] ->
  exists m offsets w',
    input in_buffer len w = Some (len, m, offsets, w') /\
    (forall i, 0 <= i < len -> m i = EOF_char) /\
    m len = NUL /\
    in_bounds len offsets = false /\
    stdin w' = [].
Proof.
  intros Hlen Hin.
  destruct (input_loop_eof len (Z.to_nat len) (input_fuel len [])
              (reader_init in_buffer))
    as (r' & Hl & Hptr & Hm & _);
    try (unfold input_fuel; simpl; lia).
  destruct (input in_buffer len w) as [[[[n m] offsets] w']|] eqn:Ei;
    [|destruct (input_total in_buffer len w) as [res E]; congruence].
  pose proof (input_spec _ _ _ _ _ _ _ Ei) as (_ & Hnul & _ & Hb & _).
  unfold input in Ei. rewrite Hin, Hl in Ei. simpl in Ei.
  rewrite Hptr in Ei. inversion Ei; subst n m offsets w'; clear Ei.
  eexists. eexists. eexists. split; [reflexivity|]. split; [|split; [|split]].
  - intros i Hi. unfold store. destruct (Z.eqb_spec i len); [lia|].
    apply Hm. simpl. lia.
  - exact Hnul.
  - destruct (in_bounds len _); [|reflexivity].
    destruct Hb as [Hb _]. specialize (Hb eq_refl). lia.
  - reflexivity.
Qed.

(** X7: the end of the stream is not detected.  When no key is left,
    [input] takes the [EOF] that [GETCH] returns for a character: it fills
    the buffer with [(char)EOF], returns [len] and has then stored past the
    [len] bytes of the buffer. *)
Theorem input_at_end_of_stream (in_buffer : memory) (len : Z) (w : world) :
  0 <= len ->
  stdin w = [] ->
  exists m offsets w',
    input in_buffer len w = Some (len, m, offsets, w') /\
    (forall i, 0 <= i < len -> m i = EOF_char) /\
    m len = NUL /\
    in_bounds len offsets = false /\
    stdin w' = [].
Proof. exact (input_eof in_buffer len w). Qed.

Lemma input_at_end_of_stream_witness :
  exists m offsets w',
    input zeros MAX_INPUT_BUFFER initialised
      = Some (MAX_INPUT_BUFFER, m, offsets, w') /\
    in_bounds MAX_INPUT_BUFFER offsets = false.
Proof.
  destruct (input_at_end_of_stream zeros MAX_INPUT_BUFFER initialised)
    as (m & offsets & w' & Hi & _ & _ & Hb & _);
    [unfold MAX_INPUT_BUFFER; lia | reflexivity |].
  exists m, offsets, w'. auto.
Defined.

(** Without a line end among the keys left, the loop of [input] stops at
    [len] only. *)
Lemma input_loop_no_line_end len fuel : forall r keys r' keys',
  input_loop fuel len r keys = Some (r', keys') ->
  existsb is_line_end keys = false ->
  reader_ok len r ->
  0 <= len ->
  ptr r' = len.
Proof.
  induction fuel as [|fuel IH]; intros r keys r' keys' H Hk Hok Hlen;
    [discriminate|].
  simpl in H.
  assert (Hch : is_line_end (fst (GETCH keys)) = false /\
                existsb is_line_end (snd (GETCH keys)) = false).
  { destruct keys as [|k ks]; simpl in *; [auto|].
    now apply orb_false_iff in Hk. }
  destruct (GETCH keys) as [ch ks]. simpl in Hch. destruct Hch as [Hch Hks].
  destruct (input_iter len r ch) as [r1|r1] eqn:E.
  - eapply IH; [exact H | exact Hks | | exact Hlen].
    eapply input_iter_continue_ok; eassumption.
  - inversion H; subst r1 keys'; clear H.
    destruct (input_iter_cases len r ch)
      as [[E1 Hc] | [[E1 _] | [[E1 _] | [E1 _]]]];
      rewrite E1 in E; try discriminate E.
    inversion E; subst r'. simpl.
    destruct Hok as [Hp _].
    destruct Hc as [-> | [-> | Hc]]; [discriminate Hch | discriminate Hch | lia].
Qed.

(** A stream that ends before the line does: [input] returns [len] and has
    stored past the buffer. *)
Lemma input_without_line_end (in_buffer : memory) (len : Z) (w : world) :
  0 <= len ->
  existsb is_line_end (stdin w) = false ->
  exists m offsets w',
    input in_buffer len w = Some (len, m, offsets, w') /\
    in_bounds len offsets = false.
Proof.
  intros Hlen Hk.
  destruct (input_total in_buffer len w) as [[[[n m] offsets] w'] Ei].
  pose proof (input_spec _ _ _ _ _ _ _ Ei) as (_ & _ & _ & Hb & _).
  assert (Hn : n = len).
  { unfold input in Ei.
    destruct (input_loop _ len _ _) as [[r ks]|] eqn:E; [|discriminate].
    inversion Ei; subst. simpl.
    eapply input_loop_no_line_end;
      [exact E | exact Hk | apply reader_init_ok | exact Hlen]. }
  subst n. exists m, offsets, w'. split; [exact Ei|].
  destruct (in_bounds len offsets); [|reflexivity].
  destruct Hb as [Hb _]. specialize (Hb eq_refl). lia.
Qed.

(** The pass that meets the end of the stream. *)
Lemma scp_parse_loop_stream_over fuel strbuff count w :
  end_parsing w = 0 ->
  existsb is_line_end (stdin w) = false ->
  scp_parse_loop (S fuel) strbuff count w = Undefined OutOfBounds.
Proof.
  intros H0 Hk. cbn [scp_parse_loop]. rewrite H0.
  change (0 =? 0) with true. cbv iota.
  unfold scp_parse_body.
  match goal with
  | |- context [input strbuff MAX_INPUT_BUFFER ?w1] =>
      destruct (input_without_line_end strbuff MAX_INPUT_BUFFER w1)
        as (m & offsets & w' & Hi & Hb);
        [unfold MAX_INPUT_BUFFER; lia | exact Hk |];
      rewrite Hi, Hb
  end.
  reflexivity.
Qed.

(** X8: the loop at the end of the stream.  Whenever the keys run out
    while the flag is clear, at any prompt of the session: after any number
    of lines read and dispatched without the flag being set, when the keys
    still unread hold no line end (none is left, or the stream stops inside
    a line), the next pass asks [input] for a line, which takes the [EOF]s
    for characters and overruns [strbuff]: the loop, and [scp_parse] with
    it, does not return, it runs into undefined behaviour. *)
Theorem scp_parse_at_end_of_stream (n fuel : nat) (strbuff : memory)
    (count : Z) (w : world) (strbuff1 : memory) (count1 : Z) (w1 : world) :
  passes n strbuff count w = Ok (strbuff1, count1, w1) ->
  end_parsing w1 = 0 ->
  existsb is_line_end (stdin w1) = false ->
  scp_parse_loop (n + S fuel) strbuff count w = Undefined OutOfBounds /\
  (forall w0, count = 1 -> w = snd (help_cmd_func 0 [] w0) ->
     scp_parse (n + S fuel) strbuff w0 = Undefined OutOfBounds).
Proof.
  intros Hp H0 Hk.
  assert (Hl : scp_parse_loop (n + S fuel) strbuff count w
               = Undefined OutOfBounds).
  { rewrite (passes_loop _ _ _ _ _ _ _ _ Hp H0).
    now apply scp_parse_loop_stream_over. }
  split; [exact Hl|].
  intros w0 -> ->. unfold scp_parse.
  destruct (help_cmd_func 0 [] w0) as [r wh]. exact Hl.
Qed.

Lemma scp_parse_at_end_of_stream_witness :
  scp_parse (1 + 1) zeros cut_session = Undefined OutOfBounds.
Proof.
  assert (H : exists b c w1,
             passes 1 zeros 1 (snd (help_cmd_func 0 [] cut_session))
               = Ok (b, c, w1) /\
             end_parsing w1 = 0 /\
             existsb is_line_end (stdin w1) = false).
  { do 3 eexists. split; [vm_compute; reflexivity|]. split; reflexivity. }
  destruct H as (b & c & w1 & Hp & H0 & Hk).
  exact (proj2 (scp_parse_at_end_of_stream 1 0 zeros 1 _ b c w1 Hp H0 Hk)
               cut_session eq_refl eq_refl).
Defined.

Lemma builtins_found do_not_exit w :
  setup do_not_exit w ->
  find_command (Some "help") (head (cmd_list w)) = Ok (Some help_cmd) /\
  find_command (Some "h") (head (cmd_list w)) = Ok (Some help_cmd).
Proof.
  intros Hs. destruct (setup_registry _ _ Hs) as (_ & _ & users & Hh & _).
  rewrite Hh. unfold builtins.
  destruct (do_not_exit =? 0); split; reflexivity.
Qed.

(** * Further properties of the dispatch *)

(** X9: an unknown command.  When the first token of the line names no
    registered command, the pass prints the unknown-command report with
    that token, whatever follows it on the line; no handler is invoked, the
    flag and the registry are as before, and the counter advances. *)
Theorem dispatch_reports_unknown_command (line : string) (count : Z)
    (w : world) (tok save : string) :
  strtok line = Some (tok, save) ->
  Forall (fun c => ~ named_by tok c) (head (cmd_list w)) ->
  exists w',
    dispatch line count w = Ok (count + 1, w') /\
    stdout w' = stdout w ++ [OutUnknown count tok; OutChar LF] /\
    calls w' = calls w /\ end_parsing w' = end_parsing w /\
    cmd_list w' = cmd_list w.
Proof.
  intros Ht Hn.
  assert (Hf : find_command (Some tok) (head (cmd_list w)) = Ok None).
  { rewrite find_command_find. f_equal. apply find_no_match.
    eapply Forall_impl; [|exact Hn]. intros c. apply name_matches_false. }
  rewrite (dispatch_unknown _ _ _ _ _ Ht Hf).
  eexists. split; [reflexivity|]. simpl. rewrite <- app_assoc. auto.
Qed.

Lemma dispatch_reports_unknown_command_witness :
  exists w',
    dispatch "sub 99 44" 3 with_set = Ok (3 + 1, w') /\
    stdout w' = stdout with_set ++ [OutUnknown 3 "sub"; OutChar LF].
Proof.
  destruct (dispatch_reports_unknown_command "sub 99 44" 3 with_set
              "sub" "99 44") as (w' & Hd & Ho & _).
  - reflexivity.
  - repeat constructor; intros [H|H]; discriminate H.
  - exists w'. auto.
Defined.

Lemma scan_token_clean s : forall t save,
  scan_token s = (t, save) ->
  forallb (fun c => negb (is_delim c)) (list_ascii_of_string t) = true.
Proof.
  induction s as [|c s IH]; simpl; intros t save.
  - intros [= <- <-]. reflexivity.
  - destruct (is_delim c) eqn:E.
    + intros [= <- <-]. reflexivity.
    + destruct (scan_token s) as [t' save'] eqn:E'. intros [= <- <-].
      simpl. rewrite E. simpl. eapply IH. reflexivity.
Qed.

Lemma strtok_is_token s t save :
  strtok s = Some (t, save) -> is_token t = true.
Proof.
  unfold strtok. destruct (skip_delims s) as [|c s'] eqn:E; [discriminate|].
  pose proof (skip_delims_head _ _ _ E) as Hc.
  intros [= H]. pose proof (scan_token_clean (String c s') t save H) as Hclean.
  simpl in H. rewrite Hc in H. destruct (scan_token s') as [t' save'].
  inversion H; subst. unfold is_token. rewrite Hclean. reflexivity.
Qed.

Lemma collect_args_tokens slots : forall save,
  forallb is_token (collect_args slots save) = true.
Proof.
  induction slots as [|n IH]; intros save; simpl.
  - now destruct (strtok save) as [[t s]|].
  - destruct (strtok save) as [[t s]|] eqn:E; [|reflexivity].
    simpl. now rewrite (strtok_is_token _ _ _ E), IH.
Qed.

(** X10: what a handler is given.  Whenever a pass invokes a handler, each
    string of [argv] is a token of the line: it is not empty and contains
    no space, comma or period, and [argc] is their number (between 0 and
    [MAX_ARGC]). *)
Theorem handler_arguments_are_tokens (line : string) (count count' : Z)
    (w w' : world) (c : call) :
  dispatch line count w = Ok (count', w') ->
  calls w' = calls w ++ [c] ->
  forallb is_token (call_argv c) = true /\
  call_argc c = Z.of_nat (List.length (call_argv c)) /\
  (List.length (call_argv c) <= MAX_ARGC)%nat.
Proof.
  intros H Hc.
  destruct (strtok line) as [[tok save]|] eqn:Ht;
    [|rewrite dispatch_null_token in H by assumption; discriminate].
  destruct (find (name_matches tok) (head (cmd_list w))) as [command|] eqn:Ef.
  - rewrite (dispatch_matched _ _ _ tok save command) in H;
      [|assumption | now rewrite find_command_find, Ef].
    cbv zeta in H.
    destruct (_ <? min_arg command);
      [inversion H; subst; simpl in Hc; symmetry in Hc;
       now apply app_one_neq in Hc|].
    destruct (_ >? max_arg command);
      [inversion H; subst; simpl in Hc; symmetry in Hc;
       now apply app_one_neq in Hc|].
    pose proof (invoke_spec (func command)
                  (Z.of_nat (List.length (collect_args MAX_ARGC save)))
                  (collect_args MAX_ARGC save) w) as Hi.
    destruct (invoke _ _ _ w) as [r w1]. destruct Hi as (Hc1 & _).
    inversion H; subst. simpl in Hc. rewrite Hc1 in Hc.
    apply app_inj_tail in Hc. destruct Hc as [_ <-].
    cbn [call_argv call_argc].
    split; [apply collect_args_tokens|]. split; [reflexivity|].
    apply collect_args_length.
  - rewrite (dispatch_unknown _ _ _ tok save) in H;
      [|assumption | now rewrite find_command_find, Ef].
    inversion H; subst. simpl in Hc. symmetry in Hc.
    now apply app_one_neq in Hc.
Qed.

Lemma handler_arguments_are_tokens_witness :
  forallb is_token ["1"; "2"; "3"] = true.
Proof.
  apply (handler_arguments_are_tokens " set 1,2. 3" 1 2 with_set
           (printf [OutChar LF]
              (printf [OutResult 1 3]
                 (log_call (mk_call (fn_user count_args) 3 ["1"; "2"; "3"])
                           with_set)))
           (mk_call (fn_user count_args) 3 ["1"; "2"; "3"]));
    reflexivity.
Defined.

(** X11: the built-in commands take no argument.  With 'end' enabled, a
    line whose first token is "end" and that carries at least one more
    token does not stop the loop: it gets the too-many report, the handler
    is not invoked and the flag stays as it was. *)
Theorem end_with_argument_does_not_stop (line : string) (count : Z)
    (w : world) (save : string) :
  setup 0 w ->
  strtok line = Some ("end", save) ->
  strtok save <> None ->
  exists w',
    dispatch line count w = Ok (count + 1, w') /\
    stdout w' = stdout w ++ [OutTooMany count "end" 0; OutChar LF] /\
    calls w' = calls w /\ end_parsing w' = end_parsing w.
Proof.
  intros Hs Ht Harg.
  destruct (setup_registry _ _ Hs) as (_ & _ & users & Hh & _).
  rewrite (dispatch_matched line count w "end" save end_cmd);
    [|exact Ht | rewrite Hh; reflexivity].
  cbv zeta.
  assert (Hpos : 0 < Z.of_nat (List.length (collect_args MAX_ARGC save))).
  { unfold MAX_ARGC. simpl.
    destruct (strtok save) as [[t s]|]; [simpl; lia | congruence]. }
  cbn [min_arg max_arg end_cmd cmd_str].
  destruct (Z.ltb_spec (Z.of_nat (List.length (collect_args MAX_ARGC save))) 0);
    [lia|].
  destruct (Z.gtb_spec (Z.of_nat (List.length (collect_args MAX_ARGC save))) 0);
    [|lia].
  eexists. split; [reflexivity|]. simpl. rewrite <- app_assoc. auto.
Qed.

Lemma end_with_argument_does_not_stop_witness :
  exists w',
    dispatch "end now" 1 initialised = Ok (1 + 1, w') /\
    stdout w' = stdout initialised ++ [OutTooMany 1 "end" 0; OutChar LF] /\
    calls w' = calls initialised /\ end_parsing w' = end_parsing initialised.
Proof.
  apply (end_with_argument_does_not_stop "end now" 1 initialised "now").
  - apply (setup_init 0 8 []). reflexivity.
  - reflexivity.
  - discriminate.
Defined.

(** X12: the help command lists the registry.  On a parser that is set up,
    a line that consists of "help" or "h" prints the header, one row for
    each registered command in registration order (the built-in ones first,
    then the client's), and the result 1; the flag and the registry stay as
    they were. *)
Theorem help_lists_the_registry (do_not_exit : Z) (line : string) (count : Z)
    (w : world) (tok save : string) :
  setup do_not_exit w ->
  strtok line = Some (tok, save) ->
  tok = "help" \/ tok = "h" ->
  strtok save = None ->
  exists w',
    dispatch line count w = Ok (count + 1, w') /\
    stdout w' = stdout w ++
      OutHelpHeader :: map help_row (head (cmd_list w)) ++
      [OutChar LF; OutResult count 1; OutChar LF] /\
    end_parsing w' = end_parsing w /\ cmd_list w' = cmd_list w.
Proof.
  intros Hs Ht Htok Hsave.
  destruct (builtins_found _ _ Hs) as (Hhelp & Hh).
  rewrite (dispatch_matched line count w tok save help_cmd);
    [|exact Ht | destruct Htok; subst tok; assumption].
  cbv zeta. unfold MAX_ARGC. cbn [collect_args]. rewrite Hsave.
  simpl. eexists. split; [reflexivity|]. simpl.
  rewrite <- !app_assoc. auto.
Qed.

Lemma help_lists_the_registry_witness :
  exists w',
    dispatch "h" 2 with_set = Ok (2 + 1, w') /\
    stdout w' = stdout with_set ++
      OutHelpHeader :: map help_row [help_cmd; end_cmd; set_cmd] ++
      [OutChar LF; OutResult 2 1; OutChar LF].
Proof.
  destruct (help_lists_the_registry 0 "h" 2 with_set "h" "")
    as (w' & Hd & Ho & _).
  - apply (setup_add 0 initialised (Some "set") (Some "s")
             (Some "Set up to six pins.") 1 6 (Some count_args)).
    + apply (setup_init 0 8 []). reflexivity.
    + reflexivity.
  - reflexivity.
  - now right.
  - reflexivity.
  - exists w'. auto.
Defined.

(** * Further properties of the loop *)

Lemma invoke_keeps f argc argv w :
  heap_nodes (snd (invoke f argc argv w)) = heap_nodes w /\
  exists out,
    stdout (snd (invoke f argc argv w)) = stdout w ++ out /\
    filter is_report out = [].
Proof.
  destruct f; simpl; split; try reflexivity.
  - eexists. rewrite <- !app_assoc. split; [reflexivity|].
    simpl. rewrite filter_app. simpl. rewrite app_nil_r.
    induction (head (cmd_list w)) as [|c l IH]; simpl; [reflexivity | exact IH].
  - exists []. now rewrite app_nil_r.
  - exists []. now rewrite app_nil_r.
Qed.

(** A dispatched line allocates nothing and prints exactly one report. *)
Lemma dispatch_prints_one_report line count w count' w' :
  dispatch line count w = Ok (count', w') ->
  count' = count + 1 /\
  heap_nodes w' = heap_nodes w /\
  exists out, stdout w' = stdout w ++ out /\ count_reports out = 1.
Proof.
  intros H.
  destruct (strtok line) as [[tok save]|] eqn:Ht;
    [|rewrite dispatch_null_token in H by assumption; discriminate].
  destruct (find (name_matches tok) (head (cmd_list w))) as [command|] eqn:Ef.
  - rewrite (dispatch_matched _ _ _ tok save command) in H;
      [|assumption | now rewrite find_command_find, Ef].
    cbv zeta in H.
    destruct (_ <? min_arg command).
    { inversion H; subst. simpl. repeat split.
      eexists. rewrite <- app_assoc. split; reflexivity. }
    destruct (_ >? max_arg command).
    { inversion H; subst. simpl. repeat split.
      eexists. rewrite <- app_assoc. split; reflexivity. }
    match type of H with
    | context [invoke ?f ?a ?v w] =>
        pose proof (invoke_keeps f a v w) as Hi;
        destruct (invoke f a v w) as [r w1]
    end.
    simpl in Hi. destruct Hi as (Hh & out & Ho & Hr).
    inversion H; subst. simpl. repeat split; [exact Hh|].
    exists (out ++ [OutResult count r; OutChar LF]).
    rewrite Ho, <- !app_assoc. split; [reflexivity|].
    unfold count_reports. rewrite filter_app, Hr. reflexivity.
  - rewrite (dispatch_unknown _ _ _ tok save) in H;
      [|assumption | now rewrite find_command_find, Ef].
    inversion H; subst. simpl. repeat split.
    eexists. rewrite <- app_assoc. split; reflexivity.
Qed.

Lemma filter_report_chars out :
  forallb is_out_char out = true -> filter is_report out = [].
Proof.
  induction out as [|o out IH]; simpl; [reflexivity|].
  intros H. apply andb_true_iff in H. destruct H as [Ho H].
  destruct o; try discriminate. simpl. now apply IH.
Qed.

Lemma count_reports_app a b :
  count_reports (a ++ b) = count_reports a + count_reports b.
Proof.
  unfold count_reports. rewrite filter_app, length_app. lia.
Qed.

Lemma input_keeps_heap in_buffer len w n m offsets w' :
  input in_buffer len w = Some (n, m, offsets, w') ->
  heap_nodes w' = heap_nodes w.
Proof.
  unfold input. destruct (input_loop _ len _ _) as [[r ks]|]; [|discriminate].
  intros [= <- <- <- <-]. reflexivity.
Qed.

(** One pass: no allocation, and the counter advances with the report. *)
Lemma scp_parse_body_counts strbuff count w strbuff' count' w' :
  scp_parse_body strbuff count w = Ok (strbuff', count', w') ->
  heap_nodes w' = heap_nodes w /\
  exists out, stdout w' = stdout w ++ out /\
              count' = count + count_reports out.
Proof.
  unfold scp_parse_body.
  destruct (input strbuff MAX_INPUT_BUFFER (printf [OutPrompt count] w))
    as [[[[n m] offsets] w1]|] eqn:Ei; [|discriminate].
  pose proof (input_keeps_heap _ _ _ _ _ _ _ Ei) as Hh.
  destruct (input_echo _ _ _ _ _ _ _ Ei) as (echo & Ho & He).
  apply filter_report_chars in He. simpl in Hh, Ho.
  destruct (in_bounds MAX_INPUT_BUFFER offsets); [|discriminate].
  destruct (n =? 0).
  - intros [= <- <- <-]. simpl. split; [exact Hh|].
    eexists. rewrite Ho, <- !app_assoc. split; [reflexivity|].
    unfold count_reports. simpl. rewrite filter_app, He. simpl. lia.
  - destruct (dispatch _ count (printf [OutChar LF] w1)) as [[c w2]| | |] eqn:Ed;
      simpl; try discriminate.
    intros [= <- <- <-].
    destruct (dispatch_prints_one_report _ _ _ _ _ Ed) as (-> & Hh2 & out & Ho2 & Hr).
    simpl in Hh2, Ho2. split; [congruence|].
    eexists. rewrite Ho2, Ho, <- !app_assoc. split; [reflexivity|].
    rewrite !count_reports_app, Hr.
    unfold count_reports at 1 2 3. simpl. rewrite He. simpl. lia.
Qed.

Lemma scp_parse_loop_keeps fuel : forall strbuff count w w',
  scp_parse_loop fuel strbuff count w = Ok w' ->
  cmd_list w' = cmd_list w /\ heap_nodes w' = heap_nodes w /\
  end_parsing w' <> 0.
Proof.
  induction fuel as [|fuel IH]; intros strbuff count w w' H; [discriminate|].
  simpl in H. destruct (Z.eqb_spec (end_parsing w) 0) as [E|E].
  - destruct (scp_parse_body strbuff count w) as [[[b c] w1]| | |] eqn:Eb;
      simpl in H; try discriminate.
    destruct (IH _ _ _ _ H) as (Hl & Hh & He).
    destruct (scp_parse_body_flag _ _ _ _ _ _ Eb) as (Hl1 & _).
    destruct (scp_parse_body_counts _ _ _ _ _ _ Eb) as (Hh1 & _).
    repeat split; congruence.
  - inversion H; subst. auto.
Qed.

(** X13: the module's own code reads the registry and never changes it.
    When [scp_parse] returns and every handler invoked during the run was a
    built-in one ('help' or 'end'), the list of commands and its size are
    those it started with, and no node was allocated.  A client's handler
    is outside this statement: it is client code, and may itself call
    [scp_add_command]. *)
Theorem scp_parse_keeps_the_registry (fuel : nat) (strbuff : memory)
    (w w' : world) :
  scp_parse fuel strbuff w = Ok w' ->
  Forall (fun c => is_builtin (call_func c) = true)
         (skipn (List.length (calls w)) (calls w')) ->
  cmd_list w' = cmd_list w /\ heap_nodes w' = heap_nodes w.
Proof.
  unfold scp_parse. simpl. intros H _.
  destruct (scp_parse_loop_keeps _ _ _ _ _ H) as (Hl & Hh & _). auto.
Qed.

Lemma scp_parse_keeps_the_registry_witness :
  exists w',
    scp_parse 2 zeros end_session = Ok w' /\
    Forall (fun c => is_builtin (call_func c) = true)
           (skipn (List.length (calls end_session)) (calls w')) /\
    cmd_list w' = cmd_list end_session /\
    heap_nodes w' = heap_nodes end_session.
Proof.
  assert (H : exists w', scp_parse 2 zeros end_session = Ok w' /\
                Forall (fun c => is_builtin (call_func c) = true)
                       (skipn (List.length (calls end_session)) (calls w'))).
  { eexists. split; [vm_compute; reflexivity|].
    repeat constructor. }
  destruct H as (w' & H & Hb). exists w'. split; [exact H|].
  split; [exact Hb|].
  exact (scp_parse_keeps_the_registry 2 zeros end_session w' H Hb).
Defined.

(** X14: the parser cannot be restarted.  Nothing clears the stop flag:
    once [scp_parse] has returned, every later call prints the command
    listing and returns at once, without a prompt and without reading a
    key. *)
Theorem scp_parse_cannot_restart (fuel : nat) (strbuff : memory)
    (w w' : world) (fuel' : nat) (strbuff' : memory) :
  scp_parse fuel strbuff w = Ok w' ->
  exists w'',
    scp_parse (S fuel') strbuff' w' = Ok w'' /\
    stdout w'' = stdout w' ++
      OutHelpHeader :: map help_row (head (cmd_list w')) ++ [OutChar LF] /\
    stdin w'' = stdin w' /\ calls w'' = calls w' /\
    end_parsing w'' = end_parsing w'.
Proof.
  unfold scp_parse at 1. simpl. intros H.
  destruct (scp_parse_loop_keeps _ _ _ _ _ H) as (_ & _ & He).
  unfold scp_parse. cbn [help_cmd_func].
  rewrite scp_parse_loop_stop by exact He.
  eexists. split; [reflexivity|]. simpl. rewrite <- !app_assoc. auto.
Qed.

Lemma scp_parse_cannot_restart_witness :
  exists w' w'',
    scp_parse 2 zeros end_session = Ok w' /\
    scp_parse 1 zeros w' = Ok w'' /\
    stdin w'' = stdin w' /\ calls w'' = calls w'.
Proof.
  assert (H : exists w', scp_parse 2 zeros end_session = Ok w')
    by (eexists; vm_compute; reflexivity).
  destruct H as [w' H].
  destruct (scp_parse_cannot_restart 2 zeros end_session w' 0 zeros H)
    as (w'' & Hr & _ & Hin & Hc & _).
  exists w', w''. auto.
Defined.

(** X15: the number in the prompt.  [count] advances exactly with the
    reports: after any number of passes it is the number it started from
    plus the number of "Out" lines printed in between; an empty line gets a
    prompt again but no number of its own. *)
Theorem count_follows_the_reports (n : nat) (strbuff : memory) (count : Z)
    (w : world) (strbuff' : memory) (count' : Z) (w' : world) :
  passes n strbuff count w = Ok (strbuff', count', w') ->
  exists out,
    stdout w' = stdout w ++ out /\
    count' = count + count_reports out /\
    count <= count' <= count + Z.of_nat n.
Proof.
  revert strbuff count w. induction n as [|n IH]; intros strbuff count w H.
  - inversion H; subst. exists []. rewrite app_nil_r.
    unfold count_reports. simpl. repeat split; lia.
  - cbn [passes] in H.
    destruct (scp_parse_body strbuff count w) as [[[b c] w1]| | |] eqn:Eb;
      simpl in H; try discriminate.
    destruct (scp_parse_body_counts _ _ _ _ _ _ Eb) as (_ & out1 & Ho1 & Hc1).
    destruct (IH _ _ _ H) as (out2 & Ho2 & Hc2 & Hb2).
    assert (Hone : 0 <= count_reports out1 <= 1).
    { revert Eb Hc1. unfold scp_parse_body.
      destruct (input _ _ _) as [[[[k m] offs] w2]|]; [|discriminate].
      destruct (in_bounds _ _); [|discriminate].
      destruct (k =? 0).
      - intros [= _ <- _] Hc1. lia.
      - destruct (dispatch _ _ _) as [[c2 w3]| | |] eqn:Ed; simpl;
          try discriminate.
        intros [= _ <- _] Hc1.
        apply dispatch_prints_one_report in Ed. lia. }
    exists (out1 ++ out2). rewrite Ho2, Ho1, <- app_assoc.
    split; [reflexivity|]. rewrite count_reports_app. lia.
Qed.

Lemma count_follows_the_reports_witness :
  exists strbuff' count' w' out,
    passes 6 zeros 1 (set_stdin session with_set) = Ok (strbuff', count', w') /\
    stdout w' = stdout (set_stdin session with_set) ++ out /\
    count' = 1 + count_reports out.
Proof.
  assert (H : exists r, passes 6 zeros 1 (set_stdin session with_set) = Ok r)
    by (eexists; vm_compute; reflexivity).
  destruct H as [[[strbuff' count'] w'] H].
  destruct (count_follows_the_reports 6 zeros 1 (set_stdin session with_set)
              strbuff' count' w' H) as (out & Ho & Hc & _).
  exists strbuff', count', w', out. auto.
Defined.

(** * The example program *)

Section ExampleHandlersFacts.

Variable atoi : string -> Z.

Lemma skipn_nth_error {A} (l : list A) : forall n a,
  nth_error l n = Some a -> skipn n l = a :: skipn (S n) l.
Proof.
  induction l as [|x l IH]; intros [|n] a H; simpl in *; try discriminate.
  - now inversion H.
  - now apply IH.
Qed.

Lemma nth_error_skipn {A} (l : list A) : forall n,
  nth_error l n = None -> skipn n l = [].
Proof.
  induction l as [|x l IH]; intros [|n] H; simpl in *;
    try reflexivity; try discriminate.
  now apply IH.
Qed.

(** What the loop of [add_cmd_func] returns when it returns. *)
Lemma add_loop_sound argv todo : forall idx result r,
  add_loop atoi argv todo idx result = Some r ->
  ((0 < todo)%nat -> (idx + todo <= List.length argv)%nat) /\
  r = result + Zsum (map atoi (firstn todo (skipn idx argv))).
Proof.
  induction todo as [|todo IH]; intros idx result r H; simpl in H.
  - inversion H; subst. simpl. split; lia.
  - destruct (nth_error argv idx) as [a|] eqn:En; [|discriminate].
    destruct (int_range (result + atoi a)); [|discriminate].
    apply IH in H. destruct H as (Hlen & ->).
    rewrite (skipn_nth_error _ _ _ En). simpl.
    assert (idx < List.length argv)%nat
      by (apply nth_error_Some; congruence).
    split; lia.
Qed.

(** The loop returns when [argv] is long enough and no sum overflows. *)
Lemma add_loop_complete argv todo : forall idx result,
  (idx + todo <= List.length argv)%nat ->
  (forall k, (1 <= k <= todo)%nat ->
     int_range (result + Zsum (map atoi (firstn k (skipn idx argv)))) = true) ->
  add_loop atoi argv todo idx result =
  Some (result + Zsum (map atoi (firstn todo (skipn idx argv)))).
Proof.
  induction todo as [|todo IH]; intros idx result Hlen Hr; simpl.
  - f_equal. lia.
  - destruct (nth_error argv idx) as [a|] eqn:En.
    2: { apply nth_error_None in En. lia. }
    rewrite (skipn_nth_error _ _ _ En) in *.
    remember (skipn (S idx) argv) as tl eqn:Etl.
    pose proof (Hr 1%nat ltac:(lia)) as H1. simpl in H1.
    rewrite Z.add_0_r in H1. rewrite H1.
    rewrite IH.
    + f_equal. subst tl. simpl. lia.
    + lia.
    + intros k Hk. specialize (Hr (S k) ltac:(lia)). simpl in Hr.
      subst tl. rewrite <- Hr. f_equal. lia.
Qed.

Lemma sub_loop_sound argv todo : forall idx result r,
  sub_loop atoi argv todo idx result = Some r ->
  ((0 < todo)%nat -> (idx + todo <= List.length argv)%nat) /\
  r = result - Zsum (map atoi (firstn todo (skipn idx argv))).
Proof.
  induction todo as [|todo IH]; intros idx result r H; simpl in H.
  - inversion H; subst. simpl. split; lia.
  - destruct (nth_error argv idx) as [a|] eqn:En; [|discriminate].
    destruct (int_range (result - atoi a)); [|discriminate].
    apply IH in H. destruct H as (Hlen & ->).
    rewrite (skipn_nth_error _ _ _ En). simpl.
    assert (idx < List.length argv)%nat
      by (apply nth_error_Some; congruence).
    split; lia.
Qed.

Lemma sub_loop_complete argv todo : forall idx result,
  (idx + todo <= List.length argv)%nat ->
  (forall k, (1 <= k <= todo)%nat ->
     int_range (result - Zsum (map atoi (firstn k (skipn idx argv)))) = true) ->
  sub_loop atoi argv todo idx result =
  Some (result - Zsum (map atoi (firstn todo (skipn idx argv)))).
Proof.
  induction todo as [|todo IH]; intros idx result Hlen Hr; simpl.
  - f_equal. lia.
  - destruct (nth_error argv idx) as [a|] eqn:En.
    2: { apply nth_error_None in En. lia. }
    rewrite (skipn_nth_error _ _ _ En) in *.
    remember (skipn (S idx) argv) as tl eqn:Etl.
    pose proof (Hr 1%nat ltac:(lia)) as H1. simpl in H1.
    rewrite Z.add_0_r in H1. rewrite H1.
    rewrite IH.
    + f_equal. subst tl. simpl. lia.
    + lia.
    + intros k Hk. specialize (Hr (S k) ltac:(lia)). simpl in Hr.
      subst tl. rewrite <- Hr. f_equal. lia.
Qed.

(** No sum the loop has formed left the range of [int]. *)
Lemma add_loop_range argv todo : forall idx result r,
  add_loop atoi argv todo idx result = Some r ->
  forall k, (1 <= k <= todo)%nat ->
    int_range (result + Zsum (map atoi (firstn k (skipn idx argv)))) = true.
Proof.
  induction todo as [|todo IH]; intros idx result r H k Hk; [lia|].
  simpl in H.
  destruct (nth_error argv idx) as [a|] eqn:En; [|discriminate].
  destruct (int_range (result + atoi a)) eqn:Er; [|discriminate].
  rewrite (skipn_nth_error _ _ _ En).
  destruct k as [|[|k]]; [lia | |].
  - simpl. now rewrite Z.add_0_r.
  - specialize (IH _ _ _ H (S k) ltac:(lia)).
    remember (skipn (S idx) argv) as tl eqn:Etl.
    change (firstn (S (S k)) (a :: tl)) with (a :: firstn (S k) tl).
    cbn [map Zsum fold_right]. fold (Zsum (map atoi (firstn (S k) tl))).
    now rewrite Z.add_assoc.
Qed.

Lemma add_cmd_func_all argv :
  (forall k, (1 <= k <= List.length argv)%nat ->
     int_range (Zsum (firstn k (map atoi argv))) = true) ->
  add_cmd_func atoi (Z.of_nat (List.length argv)) argv =
  Some (Zsum (map atoi argv)).
Proof.
  intros Hr. unfold add_cmd_func. rewrite Nat2Z.id.
  rewrite add_loop_complete.
  - simpl. now rewrite firstn_all.
  - lia.
  - intros k Hk. simpl. rewrite <- firstn_map. now apply Hr.
Qed.

Lemma sub_cmd_func_all a rest :
  (forall k, (1 <= k <= List.length rest)%nat ->
     int_range (atoi a - Zsum (firstn k (map atoi rest))) = true) ->
  sub_cmd_func atoi (Z.of_nat (List.length (a :: rest))) (a :: rest) =
  Some (atoi a - Zsum (map atoi rest)).
Proof.
  intros Hr. unfold sub_cmd_func. cbn [List.length]. rewrite Nat2Z.inj_succ.
  destruct (Z.leb_spec 1 (Z.succ (Z.of_nat (List.length rest)))); [|lia].
  cbn [nth_error].
  replace (Z.to_nat (Z.succ (Z.of_nat (List.length rest)) - 1))
    with (List.length rest) by lia.
  rewrite sub_loop_complete.
  - simpl. now rewrite firstn_all.
  - simpl. lia.
  - intros k Hk. simpl. rewrite <- firstn_map. now apply Hr.
Qed.

End ExampleHandlersFacts.

(** X16: [add_cmd_func] returns the sum of its arguments.  Called with
    [argc] the number of entries of [argv], as the parser calls it, it
    returns the sum of the [atoi] values of all of them, provided no partial
    sum leaves the range of [int].  For any [argc] and any [argv]: it
    returns a result exactly when [argv] has at least [argc] entries and no
    partial sum of the first [argc] of them leaves the range of [int], and
    the result is then the sum of the first [argc] entries (0 when
    [argc <= 0]), whatever the later entries are. *)
Theorem add_cmd_func_sums (atoi : string -> Z) (argv : list string) :
  ((forall k, (1 <= k <= List.length argv)%nat ->
      int_range (Zsum (firstn k (map atoi argv))) = true) ->
   add_cmd_func atoi (Z.of_nat (List.length argv)) argv =
     Some (Zsum (map atoi argv))) /\
  (forall argc r,
     add_cmd_func atoi argc argv = Some r <->
     argc <= Z.of_nat (List.length argv) /\
     (forall k, (1 <= k <= Z.to_nat argc)%nat ->
        int_range (Zsum (firstn k (map atoi argv))) = true) /\
     r = Zsum (map atoi (firstn (Z.to_nat argc) argv))).
Proof.
  split; [apply add_cmd_func_all|].
  intros argc r. unfold add_cmd_func. split.
  - intros H. pose proof (add_loop_range atoi _ _ _ _ _ H) as Hr.
    apply add_loop_sound in H. simpl in H, Hr. destruct H as (Hlen & ->).
    split; [lia|]. split; [|lia].
    intros k Hk. rewrite firstn_map. now apply Hr.
  - intros (Hlen & Hr & ->). rewrite add_loop_complete.
    + reflexivity.
    + lia.
    + intros k Hk. simpl. rewrite <- firstn_map. now apply Hr.
Qed.

Lemma add_cmd_func_sums_witness :
  add_cmd_func decimal 4 ["2"; "2"; "2"; "2"] = Some 8.
Proof.
  apply (proj1 (add_cmd_func_sums decimal ["2"; "2"; "2"; "2"])).
  intros [|[|[|[|[|k]]]]] Hk; simpl in Hk; try lia; reflexivity.
Defined.

(** X17: [sub_cmd_func] subtracts the later arguments from the first.
    Called on a non-empty [argv] with [argc] its number of entries, it
    returns the [atoi] value of the first entry minus those of all the
    others, provided no partial difference leaves the range of [int]; with
    [argc <= 0] it returns 0 without looking at [argv]. *)
Theorem sub_cmd_func_subtracts (atoi : string -> Z) (a : string)
    (rest : list string) :
  (forall k, (1 <= k <= List.length rest)%nat ->
     int_range (atoi a - Zsum (firstn k (map atoi rest))) = true) ->
  sub_cmd_func atoi (Z.of_nat (List.length (a :: rest))) (a :: rest) =
    Some (atoi a - Zsum (map atoi rest)) /\
  (forall argc argv, argc <= 0 -> sub_cmd_func atoi argc argv = Some 0).
Proof.
  intros Hr. split.
  - now apply sub_cmd_func_all.
  - intros argc argv Hle. unfold sub_cmd_func.
    destruct (Z.leb_spec 1 argc); [lia | reflexivity].
Qed.

Lemma sub_cmd_func_subtracts_witness :
  sub_cmd_func decimal 2 ["99"; "44"] = Some 55.
Proof.
  apply (sub_cmd_func_subtracts decimal "99" ["44"]).
  intros [|[|k]] Hk; simpl in Hk; try lia; reflexivity.
Defined.

(** ** A typed line, end to end *)

Lemma keys_length s : List.length (list_ascii_of_string s) = String.length s.
Proof. induction s as [|c s IH]; simpl; [reflexivity | now rewrite IH]. Qed.

Lemma keys_app s1 s2 :
  list_ascii_of_string (s1 ++ s2)%string =
  list_ascii_of_string s1 ++ list_ascii_of_string s2.
Proof. induction s1 as [|c s1 IH]; simpl; [reflexivity | now rewrite IH]. Qed.

Lemma typable_keys s :
  typable s = true ->
  forallb is_ordinary (list_ascii_of_string s) = true /\
  forallb (fun c => negb (c =? NUL)%char) (list_ascii_of_string s) = true.
Proof.
  unfold typable. induction (list_ascii_of_string s) as [|c l IH]; simpl.
  - auto.
  - intros H. apply andb_true_iff in H. destruct H as [Hc Hl].
    apply andb_true_iff in Hc. destruct Hc as [Ho Hn].
    destruct (IH Hl) as [H1 H2]. now rewrite Ho, Hn, H1, H2.
Qed.

Lemma typable_app s1 s2 :
  typable (s1 ++ s2)%string = typable s1 && typable s2.
Proof. unfold typable. now rewrite keys_app, forallb_app. Qed.

(** The pass on a line typed without editing is the dispatch of that line. *)
Lemma scp_parse_body_line strbuff count w line t rest :
  typable line = true ->
  line <> "" ->
  Z.of_nat (String.length line) < MAX_INPUT_BUFFER ->
  t = CR \/ t = LF ->
  stdin w = keys_of line ++ t :: rest ->
  exists m,
    scp_parse_body strbuff count w =
    ('(count', w') <-
       dispatch line count
         (printf [OutChar LF]
            (printf (map OutChar (keys_of line))
               (set_stdin rest (printf [OutPrompt count] w)))) ;;
     Ok (m, count', w')).
Proof.
  intros Hty Hne Hlen Ht Hin.
  destruct (typable_keys _ Hty) as (Hord & Hnul).
  destruct (input_plain_line strbuff MAX_INPUT_BUFFER
              (printf [OutPrompt count] w) (keys_of line) t rest)
    as (m & offsets & Hi & Hb & _ & _ & Hs); try assumption.
  - unfold keys_of. now rewrite keys_length.
  - exists m. unfold scp_parse_body. rewrite Hi, Hb.
    unfold keys_of in *. rewrite keys_length.
    destruct (Z.eqb_spec (Z.of_nat (String.length line)) 0) as [E|_].
    + destruct line; [contradiction | simpl in E; lia].
    + rewrite (Hs Hnul), string_of_list_ascii_of_string. reflexivity.
Qed.

(** X18: a typed line is dispatched as typed.  When the keys at the prompt
    are the characters of a non-empty line of fewer than 128 characters
    (none of them an editing key, a line end or NUL) followed by carriage
    return or newline, the pass echoes the line and does with it exactly
    what [dispatch] does with that string; the keys behind the line end are
    left for the next prompt. *)
Theorem typed_line_is_dispatched (strbuff : memory) (count : Z) (w : world)
    (line : string) (t : ascii) (rest : list ascii) :
  typable line = true ->
  line <> "" ->
  Z.of_nat (String.length line) < MAX_INPUT_BUFFER ->
  t = CR \/ t = LF ->
  stdin w = keys_of line ++ t :: rest ->
  exists m,
    scp_parse_body strbuff count w =
    ('(count', w') <-
       dispatch line count
         (printf [OutChar LF]
            (printf (map OutChar (keys_of line))
               (set_stdin rest (printf [OutPrompt count] w)))) ;;
     Ok (m, count', w')).
Proof. exact (scp_parse_body_line strbuff count w line t rest). Qed.

Lemma typed_line_is_dispatched_witness :
  exists m,
    scp_parse_body zeros 1 (set_stdin (keys_of "set 4,5" ++ CR :: []) with_set) =
    ('(count', w') <-
       dispatch "set 4,5" 1
         (printf [OutChar LF]
            (printf (map OutChar (keys_of "set 4,5"))
               (set_stdin []
                  (printf [OutPrompt 1]
                     (set_stdin (keys_of "set 4,5" ++ CR :: []) with_set))))) ;;
     Ok (m, count', w')).
Proof.
  apply (typed_line_is_dispatched zeros 1
           (set_stdin (keys_of "set 4,5" ++ CR :: []) with_set)
           "set 4,5" CR []);
    [reflexivity | discriminate | reflexivity | now left | reflexivity].
Defined.

(** ** Tokens in a line *)

Lemma scan_token_sep a : forall d s,
  forallb (fun c => negb (is_delim c)) (list_ascii_of_string a) = true ->
  is_delim d = true ->
  scan_token (a ++ String d s)%string = (a, s).
Proof.
  induction a as [|c a IH]; intros d s Ha Hd; simpl.
  - now rewrite Hd.
  - simpl in Ha. apply andb_true_iff in Ha. destruct Ha as [Hc Ha].
    apply negb_true_iff in Hc. rewrite Hc. now rewrite IH.
Qed.

Lemma scan_token_end a :
  forallb (fun c => negb (is_delim c)) (list_ascii_of_string a) = true ->
  scan_token a = (a, "").
Proof.
  induction a as [|c a IH]; intros Ha; simpl; [reflexivity|].
  simpl in Ha. apply andb_true_iff in Ha. destruct Ha as [Hc Ha].
  apply negb_true_iff in Hc. rewrite Hc. now rewrite IH.
Qed.

Lemma is_token_head a :
  is_token a = true ->
  exists c a', a = String c a' /\ is_delim c = false /\
    forallb (fun c => negb (is_delim c)) (list_ascii_of_string a) = true.
Proof.
  unfold is_token. destruct a as [|c a']; [discriminate|]. simpl.
  intros H. exists c, a'. split; [reflexivity|].
  destruct (is_delim c); [discriminate | auto].
Qed.

(** [strtok] on a token followed by a delimiter, and on a last token. *)
Lemma strtok_token_sep a d s :
  is_token a = true -> is_delim d = true ->
  strtok (a ++ String d s)%string = Some (a, s).
Proof.
  intros Ha Hd. destruct (is_token_head a Ha) as (c & a' & -> & Hc & Hall).
  unfold strtok. cbn [append skip_delims]. rewrite Hc.
  f_equal. now apply (scan_token_sep (String c a')).
Qed.

Lemma strtok_token_end a :
  is_token a = true -> strtok a = Some (a, "").
Proof.
  intros Ha. destruct (is_token_head a Ha) as (c & a' & -> & Hc & Hall).
  unfold strtok. cbn [skip_delims]. rewrite Hc.
  f_equal. now apply scan_token_end.
Qed.

(** ** A command with two arguments, end to end *)

Lemma string_length_app s1 s2 :
  String.length (s1 ++ s2)%string = (String.length s1 + String.length s2)%nat.
Proof. now rewrite <- !keys_length, keys_app, length_app. Qed.

(** The pass on the line "name a b", where "name" is a registered command
    that accepts two arguments. *)
Lemma pass_two_arguments strbuff count w name a b command fn rest :
  is_token name = true -> is_token a = true -> is_token b = true ->
  typable name = true -> typable a = true -> typable b = true ->
  Z.of_nat (String.length name + String.length a + String.length b) + 2
    < MAX_INPUT_BUFFER ->
  find_command (Some name) (head (cmd_list w)) = Ok (Some command) ->
  func command = fn_user fn ->
  min_arg command <= 2 <= max_arg command ->
  stdin w = keys_of (name ++ " " ++ a ++ " " ++ b)%string ++ LF :: rest ->
  exists m w1,
    scp_parse_body strbuff count w = Ok (m, count + 1, w1) /\
    cmd_list w1 = cmd_list w /\ end_parsing w1 = end_parsing w /\
    stdin w1 = rest /\
    calls w1 = calls w ++ [mk_call (fn_user fn) 2 [a; b]] /\
    In (OutResult count (fn 2 [a; b])) (stdout w1).
Proof.
  intros Hn Ha Hb Htn Hta Htb Hlen Hf Hfn Hmm Hin.
  set (line := (name ++ " " ++ a ++ " " ++ b)%string) in *.
  destruct (scp_parse_body_line strbuff count w line LF rest) as (m & Hbody);
    try assumption.
  - unfold line. rewrite !typable_app, Htn, Hta, Htb. reflexivity.
  - unfold line. destruct (is_token_head name Hn) as (c & n' & -> & _).
    discriminate.
  - unfold line. rewrite !string_length_app. simpl String.length. lia.
  - now right.
  - assert (Ht : strtok line = Some (name, (a ++ " " ++ b)%string))
      by (apply (strtok_token_sep name " "); [assumption | reflexivity]).
    assert (Hargs : collect_args MAX_ARGC (a ++ " " ++ b)%string = [a; b]).
    { change (a ++ " " ++ b)%string with (a ++ String " " b)%string.
      unfold MAX_ARGC. cbn [collect_args].
      rewrite (strtok_token_sep a " " b Ha eq_refl).
      rewrite (strtok_token_end b Hb). reflexivity. }
    rewrite (dispatch_matched line count _ name _ command Ht) in Hbody
      by exact Hf.
    cbv zeta in Hbody. rewrite Hargs in Hbody. cbn [List.length] in Hbody.
    change (Z.of_nat 2) with 2 in Hbody.
    destruct (Z.ltb_spec 2 (min_arg command)) as [?|_]; [lia|].
    destruct (Z.gtb_spec 2 (max_arg command)) as [?|_]; [lia|].
    rewrite Hfn in Hbody. cbn [invoke bind] in Hbody.
    eexists. eexists. split; [exact Hbody|]. simpl.
    repeat split. apply in_or_app. left. apply in_or_app. right. now left.
Qed.

(** ** [main] of the example *)


Section ExampleProgram.

Variable atoi : string -> Z.
Variables add_fn sub_fn : Z -> list string -> Z.
Hypothesis add_fn_ok : implements add_fn (add_cmd_func atoi).
Hypothesis sub_fn_ok : implements sub_fn (sub_cmd_func atoi).

(** The set-up of [main] with four nodes to allocate. *)
Lemma main_unfold n keys fuel strbuff :
  main add_fn sub_fn fuel strbuff (boot (4 + n) keys) =
  (w <- scp_parse fuel strbuff
          (mk_world (mk_list [help_cmd; end_cmd; example_add add_fn;
                              example_sub sub_fn] 4)
                    0 n keys
                    (map OutChar (keys_of "Simple Command Parser") ++ [OutChar LF])
                    []) ;;
   Ok (0, w)).
Proof. reflexivity. Qed.

(** One command with two arguments, then "end". *)
Lemma main_runs_command name command fn a b n rest fuel strbuff :
  is_token name = true -> is_token a = true -> is_token b = true ->
  typable name = true -> typable a = true -> typable b = true ->
  Z.of_nat (String.length name + String.length a + String.length b) + 2
    < MAX_INPUT_BUFFER ->
  find_command (Some name)
    [help_cmd; end_cmd; example_add add_fn; example_sub sub_fn]
    = Ok (Some command) ->
  func command = fn_user fn ->
  min_arg command <= 2 <= max_arg command ->
  exists w',
    main add_fn sub_fn (3 + fuel) strbuff
         (boot (4 + n)
               (keys_of (name ++ " " ++ a ++ " " ++ b)%string ++
                LF :: keys_of "end" ++ LF :: rest))
      = Ok (0, w') /\
    In (OutResult 1 (fn 2 [a; b])) (stdout w') /\
    stdin w' = rest /\ end_parsing w' = 1 /\
    calls w' = [mk_call (fn_user fn) 2 [a; b]; mk_call fn_end 0 []].
Proof.
  intros Hn Ha Hb Htn Hta Htb Hlen Hf Hfn Hmm.
  rewrite main_unfold. unfold scp_parse. cbn [help_cmd_func].
  match goal with
  | |- context [scp_parse_loop _ strbuff 1 ?W] => set (w0 := W)
  end.
  destruct (pass_two_arguments strbuff 1 w0 name a b command fn
              (keys_of "end" ++ LF :: rest))
    as (m & w1 & Hb1 & Hl1 & He1 & Hs1 & Hc1 & Ho1);
    try assumption; try reflexivity.
  destruct (scp_parse_body_end m (1 + 1) w1
              [example_add add_fn; example_sub sub_fn] rest)
    as (w2 & Hb2 & He2 & Hs2 & Hc2);
    [rewrite Hl1; reflexivity | exact Hs1 |].
  destruct (scp_parse_body_counts _ _ _ _ _ _ Hb2) as (_ & out & Ho2 & _).
  exists w2.
  change (3 + fuel)%nat with (S (S (S fuel))).
  assert (H0 : end_parsing w0 = 0) by reflexivity.
  assert (H1 : end_parsing w1 = 0) by (rewrite He1; exact H0).
  rewrite (scp_parse_loop_step _ _ _ _ _ _ _ H0 Hb1).
  rewrite (scp_parse_loop_step _ _ _ _ _ _ _ H1 Hb2).
  rewrite scp_parse_loop_stop by (rewrite He2; discriminate).
  split; [reflexivity|]. split; [|split; [|split]].
  - rewrite Ho2. apply in_or_app. now left.
  - exact Hs2.
  - exact He2.
  - rewrite Hc2, Hc1. reflexivity.
Qed.

(** X19: the example program computes.  With four nodes to allocate,
    [main] sets the parser up without tripping an assertion; when the user
    then types "add a b" (or "a a b") and "end", for two tokens [a] and [b]
    whose values and sum fit an [int], the program prints the sum as the
    result of line 1, the parser stops and [main] returns 0; likewise
    "sub a b" (or "s a b") prints the difference. *)
Theorem main_adds_and_subtracts (a b : string) (n : nat) (rest : list ascii)
    (fuel : nat) (strbuff : memory) :
  is_token a = true -> is_token b = true ->
  typable a = true -> typable b = true ->
  Z.of_nat (String.length a + String.length b) + 5 < MAX_INPUT_BUFFER ->
  int_range (atoi a) = true ->
  (int_range (atoi a + atoi b) = true ->
   forall name, name = "add" \/ name = "a" ->
   exists w',
     main add_fn sub_fn (3 + fuel) strbuff
          (boot (4 + n)
                (keys_of (name ++ " " ++ a ++ " " ++ b)%string ++
                 LF :: keys_of "end" ++ LF :: rest))
       = Ok (0, w') /\
     In (OutResult 1 (atoi a + atoi b)) (stdout w') /\
     stdin w' = rest /\ end_parsing w' = 1) /\
  (int_range (atoi a - atoi b) = true ->
   forall name, name = "sub" \/ name = "s" ->
   exists w',
     main add_fn sub_fn (3 + fuel) strbuff
          (boot (4 + n)
                (keys_of (name ++ " " ++ a ++ " " ++ b)%string ++
                 LF :: keys_of "end" ++ LF :: rest))
       = Ok (0, w') /\
     In (OutResult 1 (atoi a - atoi b)) (stdout w') /\
     stdin w' = rest /\ end_parsing w' = 1).
Proof.
  intros Ha Hb Hta Htb Hlen Hra. split.
  - intros Hr name Hname.
    assert (Hres : add_fn 2 [a; b] = atoi a + atoi b).
    { apply add_fn_ok.
      change (add_cmd_func atoi 2 [a; b])
        with (add_cmd_func atoi (Z.of_nat (List.length [a; b])) [a; b]).
      rewrite (add_cmd_func_all atoi [a; b]); [simpl; f_equal; lia|].
      intros [|[|[|k]]] Hk; simpl in Hk; try lia; simpl.
      - now rewrite Z.add_0_r.
      - now rewrite Z.add_0_r. }
    destruct (main_runs_command name (example_add add_fn) add_fn a b n rest
                fuel strbuff) as (w' & Hm & Ho & Hs & He & _);
      try assumption;
      try (destruct Hname; subst name; reflexivity);
      try (simpl; lia).
    + destruct Hname; subst name; simpl String.length; lia.
    + exists w'. rewrite Hres in Ho. auto.
  - intros Hr name Hname.
    assert (Hres : sub_fn 2 [a; b] = atoi a - atoi b).
    { apply sub_fn_ok.
      change (sub_cmd_func atoi 2 [a; b])
        with (sub_cmd_func atoi (Z.of_nat (List.length [a; b])) [a; b]).
      rewrite (sub_cmd_func_all atoi a [b]); [simpl; f_equal; lia|].
      intros [|[|k]] Hk; simpl in Hk; try lia; simpl.
      now rewrite Z.add_0_r. }
    destruct (main_runs_command name (example_sub sub_fn) sub_fn a b n rest
                fuel strbuff) as (w' & Hm & Ho & Hs & He & _);
      try assumption;
      try (destruct Hname; subst name; reflexivity);
      try (simpl; lia).
    + destruct Hname; subst name; simpl String.length; lia.
    + exists w'. rewrite Hres in Ho. auto.
Qed.

End ExampleProgram.

Lemma implements_as_handler c_func : implements (as_handler c_func) c_func.
Proof. intros argc argv r H. unfold as_handler. now rewrite H. Qed.

Lemma main_adds_and_subtracts_witness :
  exists w',
    main (as_handler (add_cmd_func decimal)) (as_handler (sub_cmd_func decimal))
         (3 + 0) zeros
         (boot (4 + 0)
               (keys_of ("sub" ++ " " ++ "99" ++ " " ++ "44")%string ++
                LF :: keys_of "end" ++ LF :: []))
      = Ok (0, w') /\
    In (OutResult 1 (decimal "99" - decimal "44")) (stdout w') /\
    stdin w' = [] /\ end_parsing w' = 1.
Proof.
  apply (proj2 (main_adds_and_subtracts decimal
                  (as_handler (add_cmd_func decimal))
                  (as_handler (sub_cmd_func decimal))
                  (implements_as_handler _) (implements_as_handler _)
                  "99" "44" 0%nat [] 0%nat zeros
                  eq_refl eq_refl eq_refl eq_refl eq_refl eq_refl)).
  - reflexivity.
  - now left.
Defined.

(** * The first version of the program *)

Section FirstVersion.

Variable atoi : string -> Z.

(** The argument loop keeps every token, and fails on the sixth. *)
Lemma v1_collect_args slots : forall save,
  V1.collect_args slots save =
  if (List.length (tokens save) <=? slots)%nat then Some (tokens save)
  else None.
Proof.
  induction slots as [|n IH]; intros save; simpl;
    rewrite tokens_unfold; destruct (strtok save) as [[t s]|]; try reflexivity.
  rewrite IH. simpl.
  destruct (List.length (tokens s) <=? n)%nat; reflexivity.
Qed.

(** X20: the first version has no guard for a line without a token.
    Pressing return on an empty line, or typing only spaces, commas and
    periods, makes [strtok] return NULL, and the loop hands that pointer to
    [strcmp (token, "end")]: undefined behaviour (the later version skips
    the empty line). *)
Theorem v1_line_without_token_is_undefined :
  (forall s rest,
     V1.keys s = CR :: rest ->
     V1.pass atoi s = V1.Fault V1.NullToken) /\
  (forall line s,
     Forall (fun c => is_delim c = true) (list_ascii_of_string line) ->
     V1.dispatch atoi line s = V1.Fault V1.NullToken).
Proof.
  split.
  - intros s rest Hk. unfold V1.pass, V1.input. rewrite Hk. reflexivity.
  - intros line s Hd. unfold V1.dispatch.
    now rewrite (strtok_delims_only _ Hd).
Qed.

(** X21: the arity check of the first version, and the overflow before it.
    For a line whose first token names a command of the table, the loop
    stores every further token into [argv], which has five entries: with
    more than five argument tokens it stores past the array before it
    compares [argc] with the bounds.  With up to five, all of them are
    passed: too few arguments are reported with [min_arg], too many with
    [min_arg] as well (not [max_arg]), and the handler is called otherwise. *)
Theorem v1_arity_and_argv_overflow (line : string) (s : V1.state)
    (tok save : string) (command : V1.command_t) :
  strtok line = Some (tok, save) ->
  tok <> "end" ->
  V1.find_command tok (V1.commands atoi) = Some command ->
  let argv := tokens save in
  let argc := Z.of_nat (List.length argv) in
  let next o :=
    V1.Next (V1.mk_state (V1.strbuff s) (V1.count s + 1) (V1.keys s)
                         (V1.out s ++ [o; V1.Newline])) in
  (5 < argc -> V1.dispatch atoi line s = V1.Fault V1.ArgvOverflow) /\
  (argc <= 5 -> argc < V1.min_arg command ->
   V1.dispatch atoi line s = next (V1.TooFew (V1.count s) (V1.min_arg command))) /\
  (argc <= 5 -> V1.min_arg command <= argc -> V1.max_arg command < argc ->
   V1.dispatch atoi line s = next (V1.TooMany (V1.count s) (V1.min_arg command))) /\
  (argc <= 5 -> V1.min_arg command <= argc <= V1.max_arg command ->
   V1.dispatch atoi line s =
   match V1.func command argc argv with
   | Some r => next (V1.Result (V1.count s) r)
   | None => V1.Fault V1.HandlerUndefined
   end).
Proof.
  intros Ht Hne Hf argv argc next.
  assert (Hend : (tok =? "end")%string = false) by now apply String.eqb_neq.
  unfold V1.dispatch. rewrite Ht, Hend, Hf, v1_collect_args.
  fold argv. unfold V1.ARGV_SIZE.
  destruct (Nat.leb_spec (List.length argv) 5) as [Hle|Hgt].
  - fold argc. repeat split; intros; try lia.
    + destruct (Z.ltb_spec argc (V1.min_arg command)); [reflexivity | lia].
    + destruct (Z.ltb_spec argc (V1.min_arg command)); [lia|].
      destruct (Z.gtb_spec argc (V1.max_arg command)); [reflexivity | lia].
    + destruct (Z.ltb_spec argc (V1.min_arg command)); [lia|].
      destruct (Z.gtb_spec argc (V1.max_arg command)); [lia|].
      destruct (V1.func command argc argv); reflexivity.
  - repeat split; intros; try reflexivity; subst argc; lia.
Qed.

End FirstVersion.

Lemma v1_arity_and_argv_overflow_witness :
  V1.dispatch decimal "add 1 2 3 4 5 6"
              (V1.mk_state zeros 1 [] []) = V1.Fault V1.ArgvOverflow.
Proof.
  apply (v1_arity_and_argv_overflow decimal "add 1 2 3 4 5 6"
           (V1.mk_state zeros 1 [] []) "add" "1 2 3 4 5 6"
           (V1.add_cmd decimal)).
  - reflexivity.
  - discriminate.
  - reflexivity.
  - vm_compute. reflexivity.
Defined.

(** * Editing a line *)

(** [input] on a stream whose first keys leave the reader running, followed
    by a line end. *)
Lemma input_of_type_keys in_buffer len w p t rest r :
  type_keys len (reader_init in_buffer) p = Continue r ->
  t = CR \/ t = LF ->
  stdin w = p ++ t :: rest ->
  input in_buffer len w =
  Some (ptr r, store (store (mem r) (ptr r) t) (ptr r) NUL,
        (written r ++ [ptr r]) ++ [ptr r],
        printf (echoed r) (set_stdin rest w)).
Proof.
  intros Hk Ht Hin.
  assert (Hbreak : input_iter len r t = Break (poke t r)).
  { destruct (input_iter_cases len r t)
      as [[E _] | [[E (Hx & _)] | [[E (Hx & _)] | [E (Hx & _)]]]];
      try exact E; destruct Ht; subst t; discriminate Hx. }
  unfold input. rewrite Hin.
  replace (input_fuel len (p ++ t :: rest))
    with (List.length p + S (List.length p + 2 * List.length rest
                             + Z.to_nat len + 2))%nat
    by (unfold input_fuel; rewrite length_app; simpl; lia).
  rewrite (input_loop_type_keys len p _ _ _ _ Hk).
  cbn [input_loop GETCH]. rewrite Hbreak. reflexivity.
Qed.

(** Erasing keys take back the characters stored last, one each, and do
    nothing once the buffer is empty. *)
Lemma type_keys_erase len es : forall r,
  forallb is_erase es = true ->
  reader_ok len r -> ptr r < len ->
  exists r',
    type_keys len r es = Continue r' /\
    ptr r' = Z.max 0 (ptr r - Z.of_nat (List.length es)) /\
    (forall j, j < ptr r' -> mem r' j = mem r j).
Proof.
  induction es as [|k es IH]; intros r He Hok Hlt.
  - exists r. simpl. destruct Hok as [Hp _]. repeat split; auto; lia.
  - simpl in He. apply andb_true_iff in He. destruct He as [Hk He].
    pose proof Hok as [Hp _].
    cbn [type_keys List.length]. rewrite Nat2Z.inj_succ.
    assert (Hnl : k <> CR /\ k <> LF).
    { unfold is_erase in Hk. split; intros ->; discriminate. }
    destruct (input_iter_cases len r k)
      as [[E Hb] | [[E (_ & Hr)] | [[E (_ & Hr & _)] | [E (Ho & _)]]]].
    + destruct Hnl. destruct Hb as [?|[?|?]]; [contradiction | contradiction | lia].
    + rewrite E.
      destruct (IH (erase (poke k r)) He) as (r' & Ht & Hptr & Hm).
      * eapply input_iter_continue_ok; [exact E | exact Hok].
      * simpl. lia.
      * simpl in Hptr, Hm. exists r'. split; [exact Ht|]. split; [lia|].
        intros j Hj. rewrite Hm by exact Hj. unfold store.
        destruct (Z.eqb_spec j (ptr r)); [lia | reflexivity].
    + rewrite E.
      destruct (IH (poke k r) He) as (r' & Ht & Hptr & Hm).
      * eapply input_iter_continue_ok; [exact E | exact Hok].
      * simpl. lia.
      * simpl in Hptr, Hm. exists r'. split; [exact Ht|]. split; [lia|].
        intros j Hj. rewrite Hm by exact Hj. unfold store.
        destruct (Z.eqb_spec j (ptr r)); [lia | reflexivity].
    + destruct (is_ordinary_facts k Ho) as (_ & _ & Hf). congruence.
Qed.

Lemma input_edited_line (in_buffer : memory) (len : Z) (w : world)
    (l es : list ascii) (t : ascii) (rest : list ascii) :
  forallb is_ordinary l = true ->
  forallb is_erase es = true ->
  Z.of_nat (List.length l) < len ->
  t = CR \/ t = LF ->
  stdin w = l ++ es ++ t :: rest ->
  let kept := firstn (List.length l - List.length es) l in
  exists m offsets w',
    input in_buffer len w = Some (Z.of_nat (List.length kept), m, offsets, w') /\
    in_bounds len offsets = true /\
    (forall i, (i < List.length kept)%nat -> m (Z.of_nat i) = nth i kept NUL) /\
    m (Z.of_nat (List.length kept)) = NUL /\
    stdin w' = rest /\
    (forallb (fun c => negb (c =? NUL)%char) kept = true ->
     c_str m 0 (Z.to_nat len) = string_of_list_ascii kept).
Proof.
  intros Hl He Hlen Ht Hin kept.
  destruct (type_keys_plain len l (reader_init in_buffer) Hl)
    as (r1 & Hk1 & Hptr1 & Hm1 & _); try (simpl; lia).
  simpl in Hptr1, Hm1.
  pose proof (type_keys_continue_ok len _ _ _ Hk1 (reader_init_ok len in_buffer))
    as Hok1.
  destruct (type_keys_erase len es r1 He Hok1) as (r2 & Hk2 & Hptr2 & Hm2);
    [lia|].
  assert (Hk : type_keys len (reader_init in_buffer) (l ++ es) = Continue r2)
    by now rewrite type_keys_app, Hk1.
  pose proof (type_keys_continue_ok len _ _ _ Hk (reader_init_ok len in_buffer))
    as [_ Hw2].
  assert (Hlk : List.length kept = (List.length l - List.length es)%nat)
    by (unfold kept; rewrite length_firstn; lia).
  assert (Hp : ptr r2 = Z.of_nat (List.length kept)) by lia.
  rewrite app_assoc in Hin.
  rewrite (input_of_type_keys in_buffer len w (l ++ es) t rest r2 Hk Ht Hin).
  rewrite Hp.
  assert (Hget : forall i, (i < List.length kept)%nat ->
            store (store (mem r2) (Z.of_nat (List.length kept)) t)
                  (Z.of_nat (List.length kept)) NUL (Z.of_nat i)
            = nth i kept NUL).
  { intros i Hi. unfold store.
    destruct (Z.eqb_spec (Z.of_nat i) (Z.of_nat (List.length kept))); [lia|].
    rewrite Hm2 by lia. rewrite Hm1 by lia.
    unfold kept. rewrite nth_firstn.
    destruct (Nat.ltb_spec i (List.length l - List.length es)); [reflexivity | lia]. }
  assert (Hnul : store (store (mem r2) (Z.of_nat (List.length kept)) t)
                       (Z.of_nat (List.length kept)) NUL
                       (Z.of_nat (List.length kept)) = NUL).
  { unfold store. now rewrite Z.eqb_refl. }
  eexists. eexists. eexists. split; [reflexivity|].
  split; [|split; [|split; [|split]]].
  - apply in_bounds_Forall. repeat (apply Forall_app; split).
    + exact Hw2.
    + constructor; [lia | constructor].
    + constructor; [lia | constructor].
  - exact Hget.
  - exact Hnul.
  - reflexivity.
  - intros Hnn. apply c_str_reads; try assumption. lia.
Qed.

(** X22: backspace and DEL edit the line.  After ordinary characters,
    fewer than [len] of them, each erasing key takes back the last
    character still stored (further ones do nothing once the line is
    empty); at the line end [input] returns what is left, the first
    [length l - length es] characters, as a terminated string inside the
    buffer. *)
Theorem input_applies_erasures (in_buffer : memory) (len : Z) (w : world)
    (l es : list ascii) (t : ascii) (rest : list ascii) :
  forallb is_ordinary l = true ->
  forallb is_erase es = true ->
  Z.of_nat (List.length l) < len ->
  t = CR \/ t = LF ->
  stdin w = l ++ es ++ t :: rest ->
  let kept := firstn (List.length l - List.length es) l in
  exists m offsets w',
    input in_buffer len w = Some (Z.of_nat (List.length kept), m, offsets, w') /\
    in_bounds len offsets = true /\
    (forall i, (i < List.length kept)%nat -> m (Z.of_nat i) = nth i kept NUL) /\
    m (Z.of_nat (List.length kept)) = NUL /\
    stdin w' = rest /\
    (forallb (fun c => negb (c =? NUL)%char) kept = true ->
     c_str m 0 (Z.to_nat len) = string_of_list_ascii kept).
Proof. exact (input_edited_line in_buffer len w l es t rest). Qed.

Lemma input_applies_erasures_witness :
  exists m offsets w',
    input zeros MAX_INPUT_BUFFER
          (set_stdin (keys_of "helpp" ++ [DEL] ++ LF :: []) initialised)
      = Some (4, m, offsets, w') /\
    c_str m 0 (Z.to_nat MAX_INPUT_BUFFER) = "help".
Proof.
  destruct (input_applies_erasures zeros MAX_INPUT_BUFFER
              (set_stdin (keys_of "helpp" ++ [DEL] ++ LF :: []) initialised)
              (keys_of "helpp") [DEL] LF [])
    as (m & offsets & w' & Hi & _ & _ & _ & _ & Hs);
    [reflexivity | reflexivity | reflexivity | now right | reflexivity |].
  exists m, offsets, w'. split; [exact Hi|]. apply Hs. reflexivity.
Defined.
